(** * Freelance order parser: recency ordering, de-duplication and extraction

    A shallow embedding of the order pipeline of the parser package
    ([parsers/combined_parser.py], [parsers/freelancespace_parser_simple.py],
    [parsers/fl_parser.py]) and the properties of its recency normalizer,
    its stable ordering, its seen sets, its page loop, its block locator and
    its field extraction, and of the notification step of the two bots
    ([telegram_bot_combined.py], [telegram_bot_simple.py]).

    Python data is modelled as follows.
    - a [str] is the list of its Unicode code points;
    - an [int] is a [Z];
    - a [set] of ids is a [gset str];
    - an order [dict] is a [gmap string pyval];
    - code that may raise returns an [outcome]. *)

From Stdlib Require Import ZArith NArith List Ascii String Lia.
From stdpp Require Import base option list strings gmap sorting.

(* The solvers of stdpp clear hypotheses that are sometimes gone already. *)
#[local] Set Warnings "-clear-no-such-hyp".

Local Open Scope Z_scope.

(** ** Python strings *)

Definition codepoint := N.
Definition str := list codepoint.

(** Literals are written as UTF-8 text and decoded to code points. *)
Fixpoint utf8_decode (bs : list N) (acc : N) (need : nat) : str :=
  match bs with
  | [] => []
  | b :: bs' =>
      match need with
      | O =>
          if (b <? 128)%N then b :: utf8_decode bs' 0%N 0%nat
          else if (b <? 224)%N then utf8_decode bs' (b - 192)%N 1%nat
          else if (b <? 240)%N then utf8_decode bs' (b - 224)%N 2%nat
          else utf8_decode bs' (b - 240)%N 3%nat
      | S O => (acc * 64 + (b - 128))%N :: utf8_decode bs' 0%N 0%nat
      | S n => utf8_decode bs' (acc * 64 + (b - 128))%N n
      end
  end.

Definition u8 (s : string) : str :=
  utf8_decode (map N_of_ascii (list_ascii_of_string s)) 0%N 0%nat.

Definition str_eqb (a b : str) : bool := bool_decide (a = b).

(** [s.startswith(p)] *)
Fixpoint startswith (p s : str) : bool :=
  match p, s with
  | [], _ => true
  | _ :: _, [] => false
  | a :: p', b :: s' => (a =? b)%N && startswith p' s'
  end.

(** [p in s] for two strings: [p] occurs as a contiguous run of [s]. *)
Fixpoint contains (p s : str) : bool :=
  match s with
  | [] => match p with [] => true | _ => false end
  | _ :: s' => startswith p s || contains p s'
  end.

(** [s.endswith(p)] *)
Definition endswith (p s : str) : bool :=
  (length p <=? length s)%nat && str_eqb (drop (length s - length p) s) p.

(** [s.split(sep)] for a non-empty separator: [skip] counts the characters
    of a separator still to be passed over, [cur] is the current piece,
    reversed. *)
Fixpoint split_aux (sep s : str) (skip : nat) (cur : str) : list str :=
  match s with
  | [] => [rev cur]
  | c :: s' =>
      match skip with
      | S k => split_aux sep s' k cur
      | O =>
          if startswith sep s
          then rev cur :: split_aux sep s' (length sep - 1) []
          else split_aux sep s' 0 (c :: cur)
      end
  end.

Definition split (sep s : str) : list str := split_aux sep s 0 [].

(** [s.lstrip(chars)] *)
Fixpoint lstrip_chars (chars s : str) : str :=
  match s with
  | [] => []
  | c :: s' => if bool_decide (c ∈ chars) then lstrip_chars chars s' else s
  end.

(** [str.isspace] on one character. *)
Definition isspace (c : codepoint) : bool :=
  ((9 <=? c) && (c <=? 13) || (28 <=? c) && (c <=? 32) || (c =? 133) ||
   (c =? 160) || (c =? 5760) || (8192 <=? c) && (c <=? 8202) ||
   (c =? 8232) || (c =? 8233) || (c =? 8239) || (c =? 8287) ||
   (c =? 12288))%N.

Fixpoint lstrip (s : str) : str :=
  match s with
  | [] => []
  | c :: s' => if isspace c then lstrip s' else s
  end.

(** [s.strip()] *)
Definition strip (s : str) : str := rev (lstrip (rev (lstrip s))).

(** [str(n)] for an [int]. *)
Definition digit_char (d : N) : codepoint := (48 + d)%N.

Fixpoint str_of_pos_aux (fuel : nat) (n : N) (acc : str) : str :=
  match fuel with
  | O => acc
  | S fuel' =>
      let acc' := digit_char (n mod 10) :: acc in
      if (n <? 10)%N then acc' else str_of_pos_aux fuel' (n / 10) acc'
  end.

Definition str_of_N (n : N) : str := str_of_pos_aux (S (N.to_nat (N.log2 n))) n [].

Definition str_of_Z (z : Z) : str :=
  if z <? 0 then 45%N :: str_of_N (Z.abs_N z) else str_of_N (Z.abs_N z).

(** ** The interpreter

    What the code takes from the running interpreter and not from the
    repository: the Unicode tables behind [str.lower] and behind the
    [\d] class of [re] / the digits of [int], the string hash of the
    process, and the limit of [int] on the number of digits of a decimal
    string ([sys.get_int_max_str_digits()]: 4300 unless the process is
    started or set otherwise, and 0 for no limit). *)

Class Interp := {
  py_lower : str → str;
  py_decimal : codepoint → option N;
  py_hash : str → Z;
  py_int_max_str_digits : nat
}.

(** A reference interpreter: case mapping of the Basic Latin and Cyrillic
    blocks, the ASCII digits, a polynomial hash, and the limit of 4300
    digits that an interpreter has when nothing sets it. *)
Definition lower_cp (c : codepoint) : codepoint :=
  if ((65 <=? c) && (c <=? 90))%N then (c + 32)%N
  else if ((1040 <=? c) && (c <=? 1071))%N then (c + 32)%N
  else if ((1024 <=? c) && (c <=? 1039))%N then (c + 80)%N
  else c.

Definition ascii_decimal (c : codepoint) : option N :=
  if ((48 <=? c) && (c <=? 57))%N then Some (c - 48)%N else None.

Definition poly_hash (s : str) : Z :=
  fold_left (fun h c => (h * 1000003 + Z.of_N c) mod 2 ^ 61 - 2 ^ 60) s 0.

Definition ref_interp : Interp :=
  {| py_lower := map lower_cp; py_decimal := ascii_decimal; py_hash := poly_hash;
     py_int_max_str_digits := 4300 |}.

(** The characters on which every interpreter agrees with the reference
    one: the ASCII characters other than the capital letters, and the
    small Cyrillic letters. They are their own lower case, and the digits
    among them are 0 to 9. *)
Definition basic (c : codepoint) : bool :=
  ((c <? 65) || (91 <=? c) && (c <? 128) || (1072 <=? c) && (c <=? 1103))%N.

Record standard (U : Interp) : Prop := {
  std_lower : ∀ s, forallb basic s = true → py_lower s = s;
  std_decimal : ∀ c, basic c = true → py_decimal c = ascii_decimal c
}.

(** The limit of [int] is 0 or at least 640
    ([sys.int_info.str_digits_check_threshold]): the interpreter accepts no
    other setting. *)
Definition limit_accepted (U : Interp) : Prop :=
  py_int_max_str_digits = 0%nat ∨ (640 ≤ py_int_max_str_digits)%nat.

(** ** Exceptions *)

Inductive exn :=
  | ValueError | IndexError | AttributeError
  | Timeout | ConnectionError | ZeroDivisionError | OtherError.

Inductive outcome (A : Type) :=
  | Ret (a : A)
  | Raise (e : exn).
Arguments Ret {A} a.
Arguments Raise {A} e.

#[global] Instance outcome_ret : MRet outcome := @Ret.
#[global] Instance outcome_bind : MBind outcome := λ A B k m,
  match m with
  | Ret a => k a
  | Raise e => Raise e
  end.

(** Evaluation of [f] on the items of a list, left to right, stopping at
    the first exception. *)
Fixpoint mapM {A B} (f : A → outcome B) (l : list A) : outcome (list B) :=
  match l with
  | [] => Ret []
  | x :: l' => y ← f x; ys ← mapM f l'; Ret (y :: ys)
  end.

(** ** Values and orders *)

Inductive pyval :=
  | PyNone
  | PyStr (s : str).

#[global] Instance pyval_eq_dec : EqDecision pyval.
Proof. solve_decision. Defined.

(** Truth value of an object, as [if x] and [not x] take it. *)
Definition truthy (v : pyval) : bool :=
  match v with
  | PyNone => false
  | PyStr [] => false
  | PyStr (_ :: _) => true
  end.

(** An order is a dict with string keys. *)
Abbreviation order := (gmap string pyval).

(** [d.get(k)] and [d.get(k, default)] *)
Definition get (d : order) (k : string) : pyval := default PyNone (d !! k).
Definition get_or (d : order) (k : string) (dflt : pyval) : pyval :=
  default dflt (d !! k).

(** [l[i]] *)
Definition index {A} (l : list A) (i : nat) : outcome A :=
  match l !! i with
  | Some x => Ret x
  | None => Raise IndexError
  end.

(** ** The recency normalizer

    [time_to_minutes], the function nested in [_sort_orders_by_time] of
    [CombinedParser] (combined_parser.py, lines 94-123) and, with the same
    text, of [FreelanceSpaceParserSimple]
    (freelancespace_parser_simple.py, lines 503-532). *)

Section Normalizer.
Context `{!Interp}.

Definition is_digit (c : codepoint) : bool :=
  match py_decimal c with
  | Some _ => true
  | None => false
  end.

(** [re.findall(r'\d+', s)]: the maximal runs of digits, left to right;
    [cur] is the run being read, reversed. *)
Fixpoint findall_digits_aux (s cur : str) : list str :=
  match s with
  | [] => match cur with [] => [] | _ => [rev cur] end
  | c :: s' =>
      if is_digit c then findall_digits_aux s' (c :: cur)
      else match cur with
           | [] => findall_digits_aux s' []
           | _ => rev cur :: findall_digits_aux s' []
           end
  end.

Definition findall_digits (s : str) : list str := findall_digits_aux s [].

(** [int(s)] on a string of decimal digits. [int_digits] reads the digits
    in base 10 and raises [ValueError] at a character that is no digit;
    the strings the code passes are runs of digits, so the signs, blanks
    and underscores that [int] tolerates do not occur. [py_int] is [int]:
    it raises [ValueError] on the empty string and, by the default of the
    interpreter, on a string of more than 4300 digits, leading zeros
    counted; [within_limit] is the test, which a limit of 0 switches
    off. *)
Fixpoint int_digits (s : str) (acc : Z) : outcome Z :=
  match s with
  | [] => Ret acc
  | c :: s' =>
      match py_decimal c with
      | Some d => int_digits s' (10 * acc + Z.of_N d)
      | None => Raise ValueError
      end
  end.

Definition within_limit (s : str) : bool :=
  (py_int_max_str_digits =? 0)%nat || (length s <=? py_int_max_str_digits)%nat.

Definition py_int (s : str) : outcome Z :=
  match s with
  | [] => Raise ValueError
  | _ =>
      n ← int_digits s 0;
      if within_limit s then Ret n else Raise ValueError
  end.

(** [time_str.lower()]: only a [str] has the method. *)
Definition lower (v : pyval) : outcome str :=
  match v with
  | PyStr s => Ret (py_lower s)
  | PyNone => Raise AttributeError
  end.

Definition time_to_minutes (time_str : pyval) : outcome Z :=
  if negb (truthy time_str) || bool_decide (time_str = PyStr (u8 "Недавно"))
  then Ret 0
  else
    time_str ← lower time_str;
    let numbers := findall_digits time_str in
    if bool_decide (numbers = []) then Ret 0
    else
      n0 ← index numbers 0;
      num ← py_int n0;
      if contains (u8 "секунд") time_str then Ret (Z.max 1 (num / 60))
      else if contains (u8 "минут") time_str then Ret num
      else if contains (u8 "час") time_str then Ret (num * 60)
      else if contains (u8 "день") time_str
              || contains (u8 "дня") time_str
              || contains (u8 "дней") time_str then Ret (num * 24 * 60)
      else if contains (u8 "недел") time_str then Ret (num * 7 * 24 * 60)
      else if contains (u8 "месяц") time_str then Ret (num * 30 * 24 * 60)
      else Ret 0.

End Normalizer.

(** ** Sorting

    [sorted(l, key=f, reverse=True)]: the keys are computed once, left to
    right, and an exception of [f] leaves [sorted]; the sort is stable, and
    with [reverse=True] items of equal keys still keep their order. The
    embedding is the insertion sort with these properties. *)

Fixpoint insert_desc {A} (key : A → Z) (x : A) (l : list A) : list A :=
  match l with
  | [] => [x]
  | y :: l' => if key x <? key y then y :: insert_desc key x l' else x :: l
  end.

Definition sort_desc {A} (key : A → Z) (l : list A) : list A :=
  foldr (insert_desc key) [] l.

(** The order of the result: no later item has a larger key. *)
Definition desc {A} (key : A → Z) (a b : A) : Prop := key b ≤ key a.

Definition sorted_reverse {A} (key : A → outcome Z) (l : list A)
  : outcome (list A) :=
  ks ← mapM key l; Ret ((sort_desc fst (zip ks l)).*2).

Section Sorting.
Context `{!Interp}.

(** [lambda x: time_to_minutes(x.get('published', ''))] *)
Definition published_key (x : order) : outcome Z :=
  time_to_minutes (get_or x "published" (PyStr [])).

(** [_sort_orders_by_time], with its fallback to the unsorted list. *)
Definition _sort_orders_by_time (orders : list order) : list order :=
  match sorted_reverse published_key orders with
  | Ret sorted_orders => sorted_orders
  | Raise _ => orders
  end.

(** The ordinal attached to an order: the key when it is computed. *)
Definition recency_ordinal (x : order) : Z :=
  match published_key x with
  | Ret n => n
  | Raise _ => 0
  end.

End Sorting.

(** The normalizer as the specification words it: the value is the first
    run of decimal digits read in base 10, and the unit is the first
    keyword found in the order seconds, minutes, hours, days, weeks,
    months. *)
Section NormalizerSpec.
Context `{!Interp}.

Definition decimal_value (run : str) : Z :=
  fold_left (λ acc c, 10 * acc + Z.of_N (default 0%N (py_decimal c))) run 0.

Definition spec_minutes (phrase : str) (value : Z) : Z :=
  if contains (u8 "секунд") phrase then Z.max 1 (value / 60)
  else if contains (u8 "минут") phrase then value * 1
  else if contains (u8 "час") phrase then value * 60
  else if contains (u8 "день") phrase || contains (u8 "дня") phrase
          || contains (u8 "дней") phrase then value * 1440
  else if contains (u8 "недел") phrase then value * 10080
  else if contains (u8 "месяц") phrase then value * 43200
  else 0.

(** [run] is the first run of digits of [s]. *)
Definition first_run (s run : str) : Prop :=
  ∃ pre post,
    s = pre ++ run ++ post ∧
    Forall (λ c, is_digit c = false) pre ∧
    run ≠ [] ∧ Forall (λ c, is_digit c = true) run ∧
    match post with [] => True | c :: _ => is_digit c = false end.

(** No unit keyword occurs in the phrase. *)
Definition no_unit (phrase : str) : Prop :=
  Forall (λ kw, contains (u8 kw) phrase = false)
    ["секунд"; "минут"; "час"; "день"; "дня"; "дней"; "недел"; "месяц"]%string.

(** The number of a phrase is within the limit of [int]: the first run of
    digits of the lower-cased phrase, when there is one, has no more
    digits than the limit. *)
Definition number_within_limit (time_str : pyval) : bool :=
  match time_str with
  | PyNone => true
  | PyStr s =>
      match findall_digits (py_lower s) with
      | [] => true
      | n0 :: _ => within_limit n0
      end
  end.

End NormalizerSpec.

(** An order with the two fields the aggregator reads. *)
Definition order_of (id published : string) : order :=
  {[ "id" := PyStr (u8 id); "published" := PyStr (u8 published) ]}.

(** The id of an order when it is a true value, and the ids of a list of
    orders, in order. *)
Definition order_id (x : order) : option str :=
  match get x "id" with
  | PyStr (c :: s) => Some (c :: s)
  | _ => None
  end.

Definition order_ids (l : list order) : list str := omap order_id l.

Definition has_id (i : str) (x : order) : bool :=
  bool_decide (get x "id" = PyStr i).

(** A process: the outputs of successive calls of a stateful query. *)
Fixpoint run {E St : Type} (step : E → St → list order * St) (envs : list E)
  (st : St) : list (list order) :=
  match envs with
  | [] => []
  | e :: es => let '(out, st') := step e st in out :: run step es st'
  end.

(** ** Seen sets

    The loop shared by [FreelanceSpaceParserSimple.get_new_orders]
    (lines 484-488) and [FLParser.get_new_orders] (lines 60-64): an order
    is new when its id is true and not in [sent_orders], and its id is
    then added to [sent_orders]. *)

Fixpoint new_orders_loop (all_orders : list order) (sent_orders : gset str)
  : list order * gset str :=
  match all_orders with
  | [] => ([], sent_orders)
  | order :: rest =>
      match get order "id" with
      | PyStr order_id =>
          if truthy (PyStr order_id) && bool_decide (order_id ∉ sent_orders)
          then
            let '(new_orders, sent) :=
              new_orders_loop rest ({[order_id]} ∪ sent_orders) in
            (order :: new_orders, sent)
          else new_orders_loop rest sent_orders
      | PyNone => new_orders_loop rest sent_orders
      end
  end.

(** The character [&], and: [sep] starts at none of the first [n]
    positions of [s]. *)
Definition amp : codepoint := 38%N.

Fixpoint not_before (sep s : str) (n : nat) : bool :=
  match n with
  | O => true
  | S n' => negb (startswith sep s) && not_before sep (tail s) n'
  end.

(** ** Documents

    A parsed document as the parser library hands it to the adapters: text
    nodes and elements with a name, the [class] attribute (a list of
    tokens when present), the [href] attribute and the children. These are
    the attributes the adapters read. The document object itself is the
    element at the root. A node of a document is referred to by its path
    from the root, which is its identity.

    The documents embedded are those without comments and without text
    inside a [script], [style] or [template] element: the library keeps
    such strings out of the text of the elements around them, and here
    every text node counts for each of its ancestors. *)

#[warnings="-register-all"] Inductive node :=
  | Text (s : str)
  | Elem (name : str) (classes : option (list str)) (href : option str)
      (children : list node).

Abbreviation path := (list nat).

Fixpoint node_at (n : node) (p : path) : option node :=
  match p with
  | [] => Some n
  | i :: p' =>
      match n with
      | Elem _ _ _ children => k ← children !! i; node_at k p'
      | Text _ => None
      end
  end.

(** [a == b] on nodes: same name, same attributes, same children. *)
Fixpoint node_eqb (a b : node) : bool :=
  match a, b with
  | Text s, Text t => bool_decide (s = t)
  | Elem n c h ks, Elem n' c' h' ks' =>
      bool_decide (n = n') && bool_decide (c = c') && bool_decide (h = h') &&
      (fix all2 (l l' : list node) : bool :=
         match l, l' with
         | [], [] => true
         | x :: l, y :: l' => node_eqb x y && all2 l l'
         | _, _ => false
         end) ks ks'
  | _, _ => false
  end.

(** The nodes below [n], in document order, with their paths; [p] is the
    path of [n]. *)
Fixpoint descendants (n : node) (p : path) : list (path * node) :=
  match n with
  | Text _ => []
  | Elem _ _ _ children =>
      (fix go (ks : list node) (i : nat) : list (path * node) :=
         match ks with
         | [] => []
         | k :: ks' =>
             (p ++ [i], k) :: descendants k (p ++ [i]) ++ go ks' (S i)
         end) children 0%nat
  end.

(** [n.get_text()], on a document of this kind: the text nodes below [n],
    in document order. *)
Fixpoint get_text (n : node) : str :=
  match n with
  | Text s => s
  | Elem _ _ _ children => List.concat (List.map get_text children)
  end.

(** [n.get_text(strip=True)]: the stripped strings that are not empty. *)
Fixpoint get_text_strip (n : node) : str :=
  match n with
  | Text s => strip s
  | Elem _ _ _ children => List.concat (List.map get_text_strip children)
  end.

Definition node_name (n : node) : option str :=
  match n with
  | Elem name _ _ _ => Some name
  | Text _ => None
  end.

(** [n.get('class', [])] and [n.get('href')] *)
Definition node_classes (n : node) : option (list str) :=
  match n with
  | Elem _ classes _ _ => classes
  | Text _ => None
  end.

Definition get_class (n : node) : list str := default [] (node_classes n).

Definition node_href (n : node) : option str :=
  match n with
  | Elem _ _ href _ => href
  | Text _ => None
  end.

(** [' '.join(tokens)] *)
Fixpoint join_space (tokens : list str) : str :=
  match tokens with
  | [] => []
  | [t] => t
  | t :: rest => t ++ 32%N :: join_space rest
  end.

(** The [class_] filter of [find] and [find_all]: some token of the
    element, or its whole class string, is one of the wanted values. *)
Definition class_matches (wanted : list str) (n : node) : bool :=
  match node_classes n with
  | None => false
  | Some tokens =>
      existsb (λ t, bool_decide (t ∈ wanted)) tokens
      || bool_decide (join_space tokens ∈ wanted)
  end.

Definition is_tag (name : string) (n : node) : bool :=
  bool_decide (node_name n = Some (u8 name)).

(** [n.find_all(name, class_=wanted)], [n.find_all(name)] and the
    corresponding [find]. *)
Definition find_all_class (name : string) (wanted : list string) (n : node)
  : list node :=
  List.filter (λ k, is_tag name k && class_matches (u8 <$> wanted) k)
    (descendants n []).*2.

Definition find_all_tag (name : string) (n : node) : list node :=
  List.filter (is_tag name) (descendants n []).*2.

Definition find_class (name : string) (wanted : list string) (n : node)
  : option node :=
  head (find_all_class name wanted n).

Definition find_tag (name : string) (n : node) : option node :=
  head (find_all_tag name n).

(** ** Requests

    The answer to a request, with the two attributes the adapters read,
    and the two ways a loop body ends early. *)

Record response := Response { status_code : Z; text : str }.

Inductive control := Break | Continue.

(** ** The paginated adapter *)

Module FreelanceSpaceParserSimple.
Section Adapter.
Context `{!Interp}.

(** *** The block locator

    [_is_order_block] (lines 208-252) and the three methods of
    [_parse_html_response] that collect [order_blocks] (lines 151-192). *)

Definition any_in (words : list string) (text : str) : bool :=
  existsb (λ word, contains (u8 word) text) words.

Definition _is_order_block (element : node) : bool :=
  let text := get_text element in
  let has_action_button :=
    any_in ["Откликнуться"; "Подать заявку"; "Отправить предложение"]%string text in
  let has_price :=
    any_in ["₽"; "руб"; "По договоренности"; "от "; "до "; "руб."]%string text in
  let has_time :=
    any_in ["назад"; "час"; "день"; "минут"; "сегодня"; "вчера"]%string text in
  let has_order_indicators :=
    any_in ["категори"; "заказ"; "проект"; "задач"; "работ"; "услуг";
            "исполнител"; "заказчик"; "автор"; "опубликован"; "создан"]%string
      text in
  let is_substantial := (50 <? length (strip text))%nat in
  let has_order_link :=
    existsb (λ link,
        match node_href link with
        | Some href => any_in ["order"; "task"; "project"]%string href
        | None => false
        end)
      (find_all_tag "a" element) in
  (has_action_button || has_order_link)
  && (has_price || has_time || has_order_indicators)
  && is_substantial.

Section Locator.
Variable soup : node.

Definition block_at (p : path) : bool :=
  match node_at soup p with
  | Some element => _is_order_block element
  | None => false
  end.

(** [n.find_parent()]: the root has none. *)
Definition find_parent (p : path) : option path :=
  match p with
  | [] => None
  | _ => Some (removelast p)
  end.

(** [block in order_blocks], with [==] of nodes. *)
Definition in_blocks (p : path) (order_blocks : list path) : bool :=
  existsb (λ q,
      match node_at soup p, node_at soup q with
      | Some a, Some b => node_eqb a b
      | _, _ => false
      end) order_blocks.

(** The walk of method 1: up from [parent], at most [depth] elements, to
    the first order block. *)
Fixpoint walk_up (depth : nat) (parent : option path) : option path :=
  match depth, parent with
  | S depth', Some p =>
      if block_at p then Some p else walk_up depth' (find_parent p)
  | _, _ => None
  end.

(** The walk of method 3: the first order block that is not in
    [order_blocks] yet. *)
Fixpoint walk_up_new (depth : nat) (parent : option path)
  (order_blocks : list path) : option path :=
  match depth, parent with
  | S depth', Some p =>
      if block_at p && negb (in_blocks p order_blocks) then Some p
      else walk_up_new depth' (find_parent p) order_blocks
  | _, _ => None
  end.

Definition append_found (order_blocks : list path) (found : option path)
  : list path :=
  match found with
  | Some p => order_blocks ++ [p]
  | None => order_blocks
  end.

(** Method 1: the text nodes with the action phrase. *)
Definition buttons : list path :=
  (List.filter (λ pn,
       match pn.2 with
       | Text text => contains (u8 "Откликнуться") text
       | Elem _ _ _ _ => false
       end) (descendants soup [])).*1.

Definition method1 : list path :=
  fold_left (λ order_blocks button,
      append_found order_blocks (walk_up 15 (find_parent button)))
    buttons [].

(** Method 2: the four selectors, in order. *)
Definition is_div (n : node) : bool := is_tag "div" n.

Definition class_contains (part : string) (n : node) : bool :=
  match node_classes n with
  | Some tokens => contains (u8 part) (join_space tokens)
  | None => false
  end.

Definition css_selectors : list (node → bool) :=
  [ λ n, is_div n && bool_decide (u8 "border" ∈ get_class n)
         && bool_decide (u8 "border-gray-300" ∈ get_class n);
    λ n, is_div n && class_contains "border" n;
    λ n, is_div n && class_contains "shadow" n;
    λ n, is_div n && class_contains "rounded" n ].

Definition select (selector : node → bool) : list path :=
  (List.filter (λ pn, selector pn.2) (descendants soup [])).*1.

Definition method2 (order_blocks : list path) : list path :=
  fold_left (λ order_blocks selector,
      fold_left (λ order_blocks block,
          if block_at block && negb (in_blocks block order_blocks)
          then order_blocks ++ [block] else order_blocks)
        (select selector) order_blocks)
    css_selectors order_blocks.

(** Method 3: the links to orders. *)
Definition order_links : list path :=
  (List.filter (λ pn,
       is_tag "a" pn.2 &&
       match node_href pn.2 with
       | Some x => truthy (PyStr x) && contains (u8 "order?id=") x
       | None => false
       end) (descendants soup [])).*1.

Definition method3 (order_blocks : list path) : list path :=
  fold_left (λ order_blocks link,
      append_found order_blocks
        (walk_up_new 10 (find_parent link) order_blocks))
    order_links order_blocks.

(** The blocks handed to the extraction, in order. *)
Definition locate_order_blocks : list path := method3 (method2 method1).

(** Every block differs, by [==], from the blocks listed before it;
    [earlier] lists them latest first. *)
Fixpoint first_seen (earlier : list path) : bool :=
  match earlier with
  | [] => true
  | p :: before => negb (in_blocks p before) && first_seen before
  end.

Definition no_repeat (order_blocks : list path) : bool :=
  first_seen (rev order_blocks).

End Locator.

(** *** Field extraction

    The steps of [_extract_order_data] that
    give the title, the link, the id (lines 265-293) and the author (lines
    295-326); the price, the category, the time and the description are
    read from other parts of the block and are left out. *)

(** Step 1: the title and the link of [h2 > a]; [None] when the function
    returns [None]. *)
Definition extract_title_url (block : node) : option (str * str) :=
  title_element ←
    find_class "h2" ["text-xl"; "font-semibold"; "text-gray-800"; "mb-2"] block;
  title_link ← find_tag "a" title_element;
  let title := get_text_strip title_link in
  let url := default [] (node_href title_link) in
  if negb (truthy (PyStr title)) then None
  else
    let url :=
      if truthy (PyStr url) && negb (startswith (u8 "http") url)
      then u8 "https://freelancespace.ru/" ++ lstrip_chars (u8 "/") url
      else url in
    Some (title, url).

(** The id of an order of FreelanceSpace, from its title and its full
    link. *)
Definition extract_order_id (title url : str) : str :=
  let order_id :=
    if contains (u8 "order?id=") url then
      match (part ← index (split (u8 "order?id=") url) 1;
             index (split (u8 "&") part) 0) with
      | Ret order_id => PyStr order_id
      | Raise _ => PyNone
      end
    else PyNone in
  match order_id with
  | PyStr (c :: rest) => c :: rest
  | _ => str_of_Z (Z.abs (py_hash (title ++ url)))
  end.

(** Step 2: the author. The first loop reads the spans of class [hidden]
    that are shown on a wide screen, the second one the spans of class
    [text-gray-800] or [font-semibold]. *)

Definition not_specified : str := u8 "Не указан".

Definition is_name (author_text title : str) : bool :=
  (length author_text <? 50)%nat && negb (str_eqb author_text title)
  && negb (contains (u8 "...") author_text).

Fixpoint first_loop (author_spans : list node) (title author : str) : str :=
  match author_spans with
  | [] => author
  | span :: rest =>
      if bool_decide (u8 "sm:inline" ∈ get_class span) then
        let author_text := get_text_strip span in
        if is_name author_text title then author_text
        else first_loop rest title author
      else first_loop rest title author
  end.

Fixpoint second_loop (author_spans : list node) (title author : str) : str :=
  match author_spans with
  | [] => author
  | span :: rest =>
      if bool_decide (u8 "font-semibold" ∈ get_class span) then
        let author_text := get_text_strip span in
        if is_name author_text title
           && negb (endswith (take (length author_text / 2) author_text) author_text)
        then
          if (2 <? length author_text)%nat then
            let half_len := (length author_text / 2)%nat in
            if str_eqb (take half_len author_text) (drop half_len author_text)
            then take half_len author_text
            else author_text
          else author
        else second_loop rest title author
      else second_loop rest title author
  end.

Definition extract_author (block : node) (title : str) : str :=
  let author := not_specified in
  match find_class "div" ["flex"; "items-start"; "md:items-center"; "gap-4"] block with
  | Some author_container =>
      let author :=
        first_loop (find_all_class "span" ["hidden"] author_container) title author in
      if str_eqb author not_specified then
        second_loop
          (find_all_class "span" ["text-gray-800"; "font-semibold"] author_container)
          title author
      else author
  | None => author
  end.

Definition _extract_order_data (block : node) : option order :=
  '(title, url) ← extract_title_url block;
  let order_id := extract_order_id title url in
  let author := extract_author block title in
  Some {[ "id" := PyStr order_id; "title" := PyStr title;
          "author" := PyStr author; "url" := PyStr url;
          "source" := PyStr (u8 "freelancespace.ru") ]}.

(** *** The category

    Step 4 of [_extract_order_data] (lines 336-371): the first [p] of a
    container with the classes [mb-4] and [gap-4] when it names a known
    category, else the first of five names that occurs in the text of the
    block. *)

Definition valid_categories : list string :=
  [ "Разработка"; "Дизайн"; "Копирайтинг"; "SEO продвижение";
    "Маркетинг"; "Другое"; "Администрирование"; "DevOps";
    "AI - искусственный интеллект"; "Программирование";
    "Аудио/виде/фото"; "Реклама и маркетинг"; "Копирайтинг и тексты" ]%string.

Definition not_stated : str := u8 "Не указана".

Fixpoint category_loop (category_containers : list node) (category : str) : str :=
  match category_containers with
  | [] => category
  | container :: rest =>
      if bool_decide (u8 "mb-4" ∈ get_class container)
         && bool_decide (u8 "gap-4" ∈ get_class container)
      then
        match find_tag "p" container with
        | Some first_p =>
            let cat_text := get_text_strip first_p in
            if bool_decide (cat_text ∈ u8 <$> valid_categories)
               && negb (contains (u8 "₽") cat_text)
               && negb (contains (u8 "руб") cat_text)
               && negb (contains (u8 "договор") (py_lower cat_text))
            then cat_text
            else category_loop rest category
        | None => category_loop rest category
        end
      else category_loop rest category
  end.

Definition category_from_text (block_text category : str) : str :=
  if contains (u8 "Разработка") block_text then u8 "Разработка"
  else if contains (u8 "Дизайн") block_text then u8 "Дизайн"
  else if contains (u8 "AI - искусственный интеллект") block_text
  then u8 "AI - искусственный интеллект"
  else if contains (u8 "SEO продвижение") block_text then u8 "SEO продвижение"
  else if contains (u8 "Программирование") block_text then u8 "Программирование"
  else category.

Definition extract_category (block : node) : str :=
  let category :=
    category_loop
      (find_all_class "div" ["flex"; "items-center"; "text-sm"; "text-gray-500"] block)
      not_stated in
  if str_eqb category not_stated then
    let block_text := get_text block in
    category_from_text block_text category
  else category.

(** *** The page loop

    [parse_orders] (lines 62-132). The request
    of a page and [_parse_html_response] are the environment of the loop:
    [post page] is the outcome of [self.session.post] for that page, and
    [parse_html_response] the outcome of [_parse_html_response] on a
    document. The loop returns the accumulated orders and the pages it
    requested, in order. The list is then sorted (line 128), and the log
    line of line 131 divides its length by the time elapsed since line 75,
    outside every [try]: [parse_orders_trace] and [parse_orders] are the
    pages requested and the sorted list, which a call returns when it
    returns, and [parse_orders_call] is the call with its two readings of
    the clock. *)

Section Pages.
Variable post : nat → outcome response.
Variable parse_html_response : str → nat → outcome (list order).

(** The body of the [try] for one page: the orders to add, or how the
    loop goes on. *)
Definition page_body (page : nat) : outcome (list order + control) :=
  response ← post page;
  if status_code response =? 200 then
    orders ← parse_html_response (text response) page;
    if bool_decide (orders = []) then Ret (inr Break)
    else Ret (inl orders)
  else Ret (inr Break).

(** One iteration with its [except] clauses: [Timeout] and
    [ConnectionError] leave the loop, any other exception goes to the
    next page. *)
Definition page_step (page : nat) : list order + control :=
  match page_body page with
  | Ret r => r
  | Raise Timeout => inr Break
  | Raise ConnectionError => inr Break
  | Raise _ => inr Continue
  end.

Fixpoint pages_loop (pages : list nat) (all_orders : list order)
  (requested : list nat) : list order * list nat :=
  match pages with
  | [] => (all_orders, requested)
  | page :: rest =>
      match page_step page with
      | inl orders => pages_loop rest (all_orders ++ orders) (requested ++ [page])
      | inr Continue => pages_loop rest all_orders (requested ++ [page])
      | inr Break => (all_orders, requested ++ [page])
      end
  end.

(** [range(1, max_pages + 1)] *)
Definition page_range (max_pages : nat) : list nat := seq 1 max_pages.

(** What a page adds to [all_orders]. *)
Definition extracted (page : nat) : list order :=
  match page_step page with
  | inl orders => orders
  | inr _ => []
  end.

(** The list [all_orders_sorted] of line 128 with the pages requested, and
    the list alone: what a call of [parse_orders] returns when its log
    line is passed. The call with its clock is [parse_orders_call], below. *)
Definition parse_orders_trace (max_pages : nat) : list order * list nat :=
  let '(all_orders, requested) := pages_loop (page_range max_pages) [] [] in
  (_sort_orders_by_time all_orders, requested).

Definition parse_orders (max_pages : nat) : list order :=
  (parse_orders_trace max_pages).1.

(** [get_new_orders] (lines 465-491), on the number of pages the caller
    passes and on a call of [parse_orders] that returns. *)
Definition get_new_orders (max_pages : nat) (sent_orders : gset str)
  : list order * gset str :=
  new_orders_loop (parse_orders max_pages) sent_orders.

(** The end of [parse_orders] (lines 128-132). [start_time] and [end_time]
    are the readings of [time.time()] of line 75 and of line 130. The
    quotient [len(all_orders_sorted)/total_time] of the log line raises
    [ZeroDivisionError] when the two readings are equal, and the exception
    leaves [parse_orders]. *)
Definition parse_orders_call (start_time end_time : Z) (max_pages : nat)
  : outcome (list order) :=
  let all_orders_sorted := parse_orders max_pages in
  let total_time := end_time - start_time in
  if total_time =? 0 then Raise ZeroDivisionError else Ret all_orders_sorted.

(** [get_new_orders] around such a call: it has no [try], and
    [sent_orders] is as it was when the exception passes. *)
Definition get_new_orders_call (start_time end_time : Z) (max_pages : nat)
  (sent_orders : gset str) : outcome (list order) * gset str :=
  match parse_orders_call start_time end_time max_pages with
  | Ret all_orders =>
      let '(new_orders, sent) := new_orders_loop all_orders sent_orders in
      (Ret new_orders, sent)
  | Raise e => (Raise e, sent_orders)
  end.

(** A fetch failure on a page: the request times out, the connection
    fails, or the status of the answer is not 200. *)
Definition fetch_failure (page : nat) : Prop :=
  post page = Raise Timeout ∨ post page = Raise ConnectionError ∨
  ∃ response, post page = Ret response ∧ status_code response ≠ 200.

(** A page that does not end the loop, with the orders it adds: the answer
    has the status 200 and [_parse_html_response] returns these orders, at
    least one; or an exception other than [Timeout] and [ConnectionError]
    leaves the request or [_parse_html_response], and the page adds
    nothing. *)
Definition page_gives (page : nat) (orders : list order) : Prop :=
  (∃ response,
     post page = Ret response ∧ status_code response = 200 ∧
     parse_html_response (text response) page = Ret orders ∧ orders ≠ []) ∨
  (∃ e, e ≠ Timeout ∧ e ≠ ConnectionError ∧ orders = [] ∧
     (post page = Raise e ∨
      ∃ response,
        post page = Ret response ∧ status_code response = 200 ∧
        parse_html_response (text response) page = Raise e)).

End Pages.

End Adapter.
End FreelanceSpaceParserSimple.

(** ** The adapter with detail pages *)

Module FLParser.
Section Adapter.
Context `{!Interp}.

(** [re.search(r'/projects/(\d+)/', href)]: the group of the leftmost
    match. [project_id_here] is the match at the start of the string. *)
Fixpoint take_digits (s : str) : str :=
  match s with
  | c :: s' => if is_digit c then c :: take_digits s' else []
  | [] => []
  end.

Definition project_id_here (s : str) : option str :=
  if startswith (u8 "/projects/") s then
    let rest := drop (length (u8 "/projects/")) s in
    let digits := take_digits rest in
    if bool_decide (digits ≠ []) && startswith (u8 "/") (drop (length digits) rest)
    then Some digits else None
  else None.

Fixpoint search_project_id (href : str) : option str :=
  match project_id_here href with
  | Some digits => Some digits
  | None =>
      match href with
      | [] => None
      | _ :: href' => search_project_id href'
      end
  end.

(** The id in [_extract_order_from_individual_page] (lines 124-130). *)
Definition order_id_from_href (href : str) : str :=
  match search_project_id href with
  | None => u8 "fl_" ++ str_of_Z (Z.abs (py_hash href) mod 1000000)
  | Some group1 => u8 "fl_" ++ group1
  end.

(** No project id is matched at any of the first [n] positions of [href]. *)
Fixpoint no_project_before (href : str) (n : nat) : bool :=
  match n with
  | O => true
  | S n' =>
      bool_decide (project_id_here href = None)
      && no_project_before (tail href) n'
  end.

(** [get_new_orders] (lines 42-67): [page] is the outcome of
    [self._parse_page(1, max_orders=5)]; an exception leaves [all_orders]
    empty. *)
Definition get_new_orders (page : outcome (list order)) (sent_orders : gset str)
  : list order * gset str :=
  let all_orders :=
    match page with
    | Ret page_orders => [] ++ page_orders
    | Raise _ => []
    end in
  new_orders_loop all_orders sent_orders.


(** [_clean_text] (lines 257-268). [re.sub(r'\s+', ' ', text)] puts one
    space for every maximal run of white space; the class [\s] of [re] on
    a [str] is [str.isspace]. [in_run] tells that the character before was
    white space. *)
Fixpoint sub_spaces (text : str) (in_run : bool) : str :=
  match text with
  | [] => []
  | c :: text' =>
      if isspace c
      then if in_run then sub_spaces text' true else 32%N :: sub_spaces text' true
      else c :: sub_spaces text' false
  end.

(** [text.replace(old, new)] for one character. *)
Definition replace (old new : codepoint) (text : str) : str :=
  (λ c, if (c =? old)%N then new else c) <$> text.

Definition _clean_text (text : str) : str :=
  if negb (truthy (PyStr text)) then []
  else
    let text := strip (sub_spaces text false) in
    let text := replace 9%N 32%N (replace 10%N 32%N text) in
    take 200 text.

(** [_parse_page] (lines 69-113). The environment is the request of the
    index page, [session_get url] being the parsed answer or the exception
    of the request or of [raise_for_status], and
    [_extract_order_from_individual_page], which returns a dict or [None]
    and raises nothing. The function returns the orders and, here, also
    the links handed to the extraction, in order. *)

Section Page.
Variable session_get : str → outcome node.
Variable _extract_order_from_individual_page : str → option order.










End Page.

End Adapter.
End FLParser.

(** ** The aggregator *)

Module CombinedParser.

(** [_filter_unique_orders] (lines 76-88): [seen_ids] is
    local to the call, [sent_orders] is the set of the aggregator. *)
Fixpoint filter_unique_loop (orders : list order) (seen_ids sent_orders : gset str)
  : list order * gset str :=
  match orders with
  | [] => ([], sent_orders)
  | order :: rest =>
      match get order "id" with
      | PyStr order_id =>
          if truthy (PyStr order_id) && bool_decide (order_id ∉ seen_ids)
             && bool_decide (order_id ∉ sent_orders)
          then
            let '(unique_orders, sent) :=
              filter_unique_loop rest ({[order_id]} ∪ seen_ids)
                ({[order_id]} ∪ sent_orders) in
            (order :: unique_orders, sent)
          else filter_unique_loop rest seen_ids sent_orders
      | PyNone => filter_unique_loop rest seen_ids sent_orders
      end
  end.

Definition _filter_unique_orders (orders : list order) (sent_orders : gset str)
  : list order * gset str :=
  filter_unique_loop orders ∅ sent_orders.

(** [get_new_orders] (lines 33-74). The state is the three
    seen sets; the environment of one cycle is what the two origins
    answer. The adapters return in every case, so the two [try] blocks
    have no other branch here. *)

Record state := State {
  fs_sent : gset str;
  fl_sent : gset str;
  sent_orders : gset str
}.

Record cycle_env := CycleEnv {
  fs_post : nat → outcome response;
  fs_parse : str → nat → outcome (list order);
  fl_page : outcome (list order)
}.

Definition initial : state := State ∅ ∅ ∅.

Section Aggregator.
Context `{!Interp}.

Definition get_new_orders (env : cycle_env) (pages : nat) (st : state)
  : list order * state :=
  let all_orders := [] in
  let '(freelancespace_orders, fs') :=
    FreelanceSpaceParserSimple.get_new_orders (fs_post env) (fs_parse env) pages
      (fs_sent st) in
  let all_orders := all_orders ++ freelancespace_orders in
  let '(fl_orders, fl') := FLParser.get_new_orders (fl_page env) (fl_sent st) in
  let all_orders := all_orders ++ fl_orders in
  let '(unique_orders, sent') := _filter_unique_orders all_orders (sent_orders st) in
  let sorted_orders := _sort_orders_by_time unique_orders in
  (sorted_orders, State fs' fl' sent').

(** The states of a process: any number of cycles from the empty sets. *)
Inductive reachable : state → Prop :=
  | reachable_initial : reachable initial
  | reachable_cycle env pages st :
      reachable st → reachable (get_new_orders env pages st).2.

End Aggregator.


(** [total_sent_orders] (lines 135-138) and [get_sources_info] (lines
    140-152): the sizes of the three sets. *)
Definition total_sent_orders (st : state) : nat := size (sent_orders st).

Record source_info := SourceInfo { name : str; source_sent_orders : nat }.

Record sources_info := SourcesInfo {
  freelancespace : source_info;
  fl : source_info;
  total_sent : nat
}.

Definition get_sources_info (st : state) : sources_info :=
  {| freelancespace :=
       {| name := u8 "FreelanceSpace.ru"; source_sent_orders := size (fs_sent st) |};
     fl := {| name := u8 "FL.ru"; source_sent_orders := size (fl_sent st) |};
     total_sent := total_sent_orders st |}.

End CombinedParser.

Import FreelanceSpaceParserSimple FLParser CombinedParser.

(** The seen set of the aggregator only holds ids that an adapter has
    marked too. *)
Definition seen_by_adapters (st : state) : Prop :=
  sent_orders st ⊆ fs_sent st ∪ fl_sent st.

(** The three queries as steps of a process: a call of the paginated
    adapter with what its origin answers, a call of the detail-page
    adapter, and a cycle of the aggregator. *)
Definition fs_call : Type :=
  (nat → outcome response) * (str → nat → outcome (list order)) * nat.

Section Steps.
Context `{!Interp}.

Definition fs_step (call : fs_call) (sent : gset str) : list order * gset str :=
  let '(post, parse_html_response, max_pages) := call in
  FreelanceSpaceParserSimple.get_new_orders post parse_html_response max_pages sent.

Definition fl_step (page : outcome (list order)) (sent : gset str)
  : list order * gset str :=
  FLParser.get_new_orders page sent.

Definition cycle_step (call : cycle_env * nat) (st : state) : list order * state :=
  CombinedParser.get_new_orders call.1 call.2 st.

End Steps.

(** The state of a process after its calls. *)
Fixpoint run_state {E St : Type} (step : E → St → list order * St)
  (envs : list E) (st : St) : St :=
  match envs with
  | [] => st
  | e :: es => run_state step es (step e st).2
  end.

(** ** The bots

    [parse_and_notify] and [send_order_notification] of
    [telegram_bot_combined.py] (lines 255-338) and of
    [telegram_bot_simple.py] (lines 212-290). The environment of a call is
    what the origins answer and what [bot.send_message] does with a
    message: it returns or raises. Beside its result a call gives the
    attempts of the cycle, in order: the order, the message handed to
    [send_message], and whether [send_message] returned. The clock and the
    log are left out. *)

(** [f'{v}'] *)
Definition format (v : pyval) : str :=
  match v with
  | PyStr s => s
  | PyNone => u8 "None"
  end.

(** A message: its text and the link of its button, when it has one. *)
Record message := Message { message_text : str; reply_markup : option str }.

Record attempt := Attempt {
  attempted : order;
  handed : message;
  delivered : bool
}.

(** [order.get('url')] as the link of the one button: there is a button
    when the link is a true value. *)
Definition keyboard (order : order) : option str :=
  match get order "url" with
  | PyStr (c :: url) => Some (c :: url)
  | _ => None
  end.

Module FreelanceParserBotCombined.
Section Bot.
Context `{!Interp}.

Definition is_freelancespace (order : order) : bool :=
  bool_decide (get order "source" = PyStr (u8 "FreelanceSpace.ru")).

Definition source_emoji (order : order) : str :=
  if is_freelancespace order then u8 "🔹" else u8 "🔸".

Definition notification_text (order : order) : str :=
  u8 "
🆕 **Новый заказ на "
  ++ format (get_or order "source" (PyStr (u8 "Фриланс площадке")))
  ++ u8 "** " ++ source_emoji order ++ u8 "

📋 **" ++ format (get_or order "title" (PyStr (u8 "Без названия"))) ++ u8 "**

💰 **Цена:** " ++ format (get_or order "price" (PyStr (u8 "Не указана"))) ++ u8 "
📂 **Категория:** " ++ format (get_or order "category" (PyStr (u8 "Не указана"))) ++ u8 "
👤 **Автор:** " ++ format (get_or order "author" (PyStr (u8 "Не указан"))) ++ u8 "
🕐 **Опубликовано:** " ++ format (get_or order "published" (PyStr (u8 "Недавно"))) ++ u8 "

📝 **Описание:**
" ++ format (get_or order "description" (PyStr (u8 "Описание отсутствует"))) ++ u8 "

🔗 **Источник:** " ++ format (get_or order "source" (PyStr (u8 "freelancespace.ru"))) ++ u8 "
            ".

(** [send_order_notification]: every exception ends in its [except]
    clause. *)
Definition send_order_notification (send_message : message → outcome ())
  (order : order) : attempt :=
  let m := Message (notification_text order) (keyboard order) in
  Attempt order m
    match send_message m with
    | Ret _ => true
    | Raise _ => false
    end.

(** The two counts of the log line. *)
Definition freelancespace_count (new_orders : list order) : nat :=
  length (List.filter is_freelancespace new_orders).

Definition fl_count (new_orders : list order) : nat :=
  length (List.filter
            (λ o, bool_decide (get o "source" = PyStr (u8 "FL.ru"))) new_orders).

(** [parse_and_notify]: the aggregator is asked with its default of three
    pages. *)
Definition parse_and_notify (env : cycle_env)
  (send_message : message → outcome ()) (st : state)
  : list order * list attempt * state :=
  let '(new_orders, st') := CombinedParser.get_new_orders env 3 st in
  if bool_decide (new_orders = []) then ([], [], st')
  else (new_orders, send_order_notification send_message <$> new_orders, st').

(** The attempts of successive calls of [parse_and_notify], each with
    what the origins answer and what [send_message] does in that call. *)
Fixpoint notify_run (calls : list (cycle_env * (message → outcome ())))
  (st : state) : list (list attempt) :=
  match calls with
  | [] => []
  | (env, send_message) :: rest =>
      let '(_, attempts, st') := parse_and_notify env send_message st in
      attempts :: notify_run rest st'
  end.

End Bot.
End FreelanceParserBotCombined.

Module FreelanceParserBotSimple.
Section Bot.
Context `{!Interp}.

Definition notification_text (order : order) : str :=
  u8 "
🆕 **Новый заказ на "
  ++ format (get_or order "source" (PyStr (u8 "FreelanceSpace.ru"))) ++ u8 "**

📋 **" ++ format (get_or order "title" (PyStr (u8 "Без названия"))) ++ u8 "**

💰 **Цена:** " ++ format (get_or order "price" (PyStr (u8 "Не указана"))) ++ u8 "
📂 **Категория:** " ++ format (get_or order "category" (PyStr (u8 "Не указана"))) ++ u8 "
👤 **Автор:** " ++ format (get_or order "author" (PyStr (u8 "Не указан"))) ++ u8 "
🕐 **Опубликовано:** " ++ format (get_or order "published" (PyStr (u8 "Недавно"))) ++ u8 "

📝 **Описание:**
" ++ format (get_or order "description" (PyStr (u8 "Описание отсутствует"))) ++ u8 "

🔗 **Источник:** " ++ format (get_or order "source" (PyStr (u8 "freelancespace.ru"))) ++ u8 "
            ".

Definition send_order_notification (send_message : message → outcome ())
  (order : order) : attempt :=
  let m := Message (notification_text order) (keyboard order) in
  Attempt order m
    match send_message m with
    | Ret _ => true
    | Raise _ => false
    end.

(** [parse_and_notify]: [max_pages] is the number of pages of the
    performance settings, which the adapter takes when it is called
    without one; the new orders are sorted once more before they are
    sent. *)
Definition parse_and_notify (post : nat → outcome response)
  (parse_html_response : str → nat → outcome (list order)) (max_pages : nat)
  (send_message : message → outcome ()) (sent_orders : gset str)
  : list order * list attempt * gset str :=
  let '(new_orders, sent') :=
    FreelanceSpaceParserSimple.get_new_orders post parse_html_response max_pages
      sent_orders in
  if bool_decide (new_orders = []) then ([], [], sent')
  else
    let sorted_orders := _sort_orders_by_time new_orders in
    (sorted_orders, send_order_notification send_message <$> sorted_orders, sent').

End Bot.
End FreelanceParserBotSimple.

(** Two origins that both list an order with id "X", and an order without
    an id. *)
Definition both_list_X : cycle_env :=
  {| fs_post := λ _, Ret (Response 200 []);
     fs_parse := λ _ page,
       if (page =? 1)%nat then Ret [order_of "X" "2 часа"] else Ret [];
     fl_page := Ret [order_of "X" "Недавно"] |}.

Definition order_without_id : order :=
  {[ "published" := PyStr (u8 "1 час") ]}.

(** An origin whose first page lists two orders and whose second request
    times out. *)
Definition second_page_times_out : nat → outcome response :=
  λ page, if (page =? 1)%nat then Ret (Response 200 (u8 "page")) else Raise Timeout.

Definition two_orders : str → nat → outcome (list order) :=
  λ _ _, Ret [order_of "7" "5 минут"; order_of "8" "2 часа"].

(** Sample documents. *)
Definition el (name : string) (classes : list string) (children : list node)
  : node :=
  Elem (u8 name)
    (match classes with [] => None | _ => Some (u8 <$> classes) end)
    None children.

Definition link (href : string) (children : list node) : node :=
  Elem (u8 "a") None (Some (u8 href)) children.

Definition txt (s : string) : node := Text (u8 s).

Definition document (children : list node) : node :=
  Elem (u8 "[document]") None None children.

(** A listing with the action phrase on two buttons. *)
Definition two_buttons : node :=
  document
    [ el "div" ["border"; "rounded"]
        [ el "h2" [] [txt "Разработка сайта для интернет-магазина"];
          el "p" [] [txt "Цена: 5000 руб., опубликован 2 часа назад"];
          el "a" ["btn"] [txt "Откликнуться"];
          el "button" ["btn"] [txt "Откликнуться"] ] ].

(** A listing whose author is only in a span of class [font-semibold],
    with the name twice, and one whose author is in the span shown on a
    wide screen. *)
Definition listing (author_span : node) : node :=
  el "div" ["border"]
    [ el "div" ["flex"; "items-start"; "gap-4"] [author_span];
      el "h2" ["text-xl"; "font-semibold"]
        [link "/order?id=4711" [txt "Landing page"]] ].

Definition doubled_name : node :=
  listing (el "span" ["text-gray-800"; "font-semibold"] [txt "IvanIvan"]).

Definition doubled_name_wide : node :=
  listing (el "span" ["hidden"; "sm:inline"] [txt "IvanIvan"]).

Definition plain_name : node :=
  listing (el "span" ["text-gray-800"; "font-semibold"] [txt "Ivan"]).

(** [s.rstrip()] *)
Definition rstrip (s : str) : str := rev (lstrip (rev s)).



(** Two orders published "5 минут" and "2 часа" ago, followed by an order
    whose published string has a number of 4301 digits. *)
Definition overlong : order :=
  {[ "id" := PyStr (u8 "3");
     "published" := PyStr (replicate 4301 57%N ++ u8 " минут") ]}.

Definition with_overlong : list order :=
  [order_of "1" "5 минут"; order_of "2" "2 часа"; overlong].

(** * Properties *)

(** ** The stable descending sort *)

Section SortDesc.
Context {A : Type} (key : A → Z).

Lemma insert_desc_perm x l : insert_desc key x l ≡ₚ x :: l.
Proof.
  induction l as [|y l IH]; simpl; [done|].
  case_match; [|done].
  rewrite IH. apply Permutation_swap.
Qed.

Lemma sort_desc_perm l : sort_desc key l ≡ₚ l.
Proof.
  induction l as [|x l IH]; simpl; [done|].
  rewrite insert_desc_perm. by rewrite IH.
Qed.

Lemma insert_desc_sorted x l :
  StronglySorted (desc key) l → StronglySorted (desc key) (insert_desc key x l).
Proof.
  induction 1 as [|y l Hl IH Hy]; simpl.
  - repeat constructor.
  - destruct (Z.ltb_spec (key x) (key y)) as [Hlt|Hge].
    + constructor; [done|].
      rewrite insert_desc_perm. constructor; [unfold desc; lia|done].
    + constructor; [by constructor|].
      constructor; [done|].
      eapply Forall_impl; [exact Hy|]. unfold desc. intros; lia.
Qed.

Lemma sort_desc_sorted l : StronglySorted (desc key) (sort_desc key l).
Proof.
  induction l; simpl; [constructor|by apply insert_desc_sorted].
Qed.

Lemma insert_desc_filter (P : A → Prop) `{!∀ a, Decision (P a)} x l :
  (∀ a b, P a → P b → key a = key b) →
  filter P (insert_desc key x l) = filter P (x :: l).
Proof.
  intros HP. induction l as [|y l IH]; simpl; [done|].
  destruct (Z.ltb_spec (key x) (key y)) as [Hlt|Hge]; [|done].
  rewrite filter_cons, IH, !filter_cons.
  destruct (decide (P y)) as [Hy|Hy], (decide (P x)) as [Hx|Hx]; try done.
  specialize (HP _ _ Hx Hy). lia.
Qed.

Lemma sort_desc_stable k l :
  filter (λ a, key a = k) (sort_desc key l) = filter (λ a, key a = k) l.
Proof.
  induction l as [|x l IH]; simpl; [done|].
  rewrite insert_desc_filter by congruence.
  by rewrite !filter_cons, IH.
Qed.

Lemma sorted_stable_unique l1 l2 :
  StronglySorted (desc key) l1 → StronglySorted (desc key) l2 →
  (∀ k, filter (λ a, key a = k) l1 = filter (λ a, key a = k) l2) →
  l1 = l2.
Proof.
  intros H1. revert l2. induction H1 as [|x t1 Ht1 IH Hx]; intros l2 H2 Hf.
  - destruct l2 as [|y t2]; [done|].
    specialize (Hf (key y)). rewrite filter_cons_True in Hf by done. done.
  - destruct H2 as [|y t2 Ht2 Hy].
    { specialize (Hf (key x)). rewrite filter_cons_True in Hf by done. done. }
    assert (key x = key y) as Hk.
    { pose proof (Hf (key x)) as Ha. pose proof (Hf (key y)) as Hb.
      rewrite filter_cons_True in Ha by done.
      rewrite (filter_cons_True _ y) in Hb by done.
      assert (x ∈ y :: t2) as Hin.
      { eapply (list_elem_of_filter (λ a, key a = key x)). rewrite <- Ha. left. }
      assert (y ∈ x :: t1) as Hin'.
      { eapply (list_elem_of_filter (λ a, key a = key y)). rewrite Hb. left. }
      rewrite Forall_forall in Hx, Hy. unfold desc in *.
      apply elem_of_cons in Hin as [->|Hin]; [done|].
      apply elem_of_cons in Hin' as [->|Hin']; [done|].
      specialize (Hx _ Hin'). specialize (Hy _ Hin). lia. }
    assert (x = y) as ->.
    { specialize (Hf (key x)). rewrite !filter_cons_True in Hf by done.
      congruence. }
    f_equal. apply IH; [done|]. intros k. specialize (Hf k).
    rewrite !filter_cons in Hf. case_decide; congruence.
Qed.

End SortDesc.

(** ** The recency normalizer *)

Lemma bind_ret {A B} (a : A) (k : A → outcome B) : (Ret a ≫= k) = k a.
Proof. reflexivity. Qed.

Section NormalizerFacts.
Context `{!Interp}.

Lemma findall_digits_aux_runs s cur :
  Forall (λ c, is_digit c = true) cur →
  Forall (λ r, r ≠ [] ∧ Forall (λ c, is_digit c = true) r)
    (findall_digits_aux s cur).
Proof.
  revert cur. induction s as [|c s IH]; intros cur Hcur; simpl.
  - destruct cur as [|d cur]; [constructor|].
    constructor; [|constructor]. split.
    + intros Hr. apply (f_equal length) in Hr. rewrite length_rev in Hr. done.
    + by apply Forall_rev.
  - destruct (is_digit c) eqn:Hc.
    + apply IH. by constructor.
    + destruct cur as [|d cur]; [by apply IH|].
      constructor; [|by apply IH]. split.
      * intros Hr. apply (f_equal length) in Hr. rewrite length_rev in Hr. done.
      * by apply Forall_rev.
Qed.

Lemma int_digits_nonneg r acc :
  Forall (λ c, is_digit c = true) r → 0 ≤ acc →
  ∃ n, int_digits r acc = Ret n ∧ 0 ≤ n.
Proof.
  revert acc. induction r as [|c r IH]; intros acc Hr Hacc; simpl.
  - eauto.
  - inversion_clear Hr as [|? ? Hc Hr']. unfold is_digit in Hc.
    destruct (py_decimal c) as [d|]; [|done].
    apply IH; [done|lia].
Qed.

Lemma int_digits_value r acc :
  Forall (λ c, is_digit c = true) r →
  int_digits r acc =
  Ret (fold_left (λ a c, 10 * a + Z.of_N (default 0%N (py_decimal c))) r acc).
Proof.
  revert acc. induction r as [|c r IH]; intros acc Hr; simpl; [done|].
  inversion_clear Hr as [|? ? Hc Hr']. unfold is_digit in Hc.
  destruct (py_decimal c) as [d|]; [|done]. simpl. by apply IH.
Qed.

Lemma findall_digits_aux_digits run post cur :
  Forall (λ c, is_digit c = true) run →
  findall_digits_aux (run ++ post) cur = findall_digits_aux post (rev run ++ cur).
Proof.
  revert cur. induction run as [|c run IH]; intros cur Hr; simpl; [done|].
  inversion_clear Hr as [|? ? Hc Hr']. rewrite Hc, IH by done.
  by rewrite <- app_assoc.
Qed.

Lemma findall_digits_aux_others pre s :
  Forall (λ c, is_digit c = false) pre →
  findall_digits_aux (pre ++ s) [] = findall_digits_aux s [].
Proof.
  induction 1 as [|c pre Hc Hpre IH]; simpl; [done|]. by rewrite Hc.
Qed.

Lemma findall_digits_first s run :
  first_run s run → ∃ rest, findall_digits s = run :: rest.
Proof.
  intros (pre & post & -> & Hpre & Hne & Hrun & Hpost).
  unfold findall_digits.
  rewrite findall_digits_aux_others, findall_digits_aux_digits by done.
  rewrite app_nil_r.
  destruct (rev run) as [|d cur] eqn:Hrev.
  { apply (f_equal length) in Hrev. rewrite length_rev in Hrev.
    destruct run; done. }
  rewrite <- Hrev.
  destruct post as [|c post]; simpl.
  - rewrite Hrev, <- Hrev, rev_involutive. eauto.
  - rewrite Hpost, Hrev, <- Hrev, rev_involutive. eauto.
Qed.

Lemma py_int_value r :
  r ≠ [] → Forall (λ c, is_digit c = true) r →
  py_int r = if within_limit r then Ret (decimal_value r) else Raise ValueError.
Proof.
  intros Hne Hr. destruct r as [|c r]; [done|].
  unfold py_int, decimal_value. by rewrite int_digits_value, bind_ret.
Qed.

Lemma decimal_value_nonneg r : 0 ≤ decimal_value r.
Proof.
  unfold decimal_value.
  assert (∀ acc, 0 ≤ acc →
    0 ≤ fold_left (λ a c, 10 * a + Z.of_N (default 0%N (py_decimal c))) r acc)
    as Hgen; [|by apply Hgen].
  induction r as [|c r IH]; intros acc Hacc; simpl; [done|].
  apply IH. lia.
Qed.

(** [int] raises on a first run of digits over the limit; the branches of
    [time_to_minutes] after the number is read are those of the
    specification. *)
Lemma time_to_minutes_spec s :
  s ≠ [] → s ≠ u8 "Недавно" →
  time_to_minutes (PyStr s) =
  match findall_digits (py_lower s) with
  | [] => Ret 0
  | n0 :: _ =>
      if within_limit n0
      then Ret (spec_minutes (py_lower s) (decimal_value n0))
      else Raise ValueError
  end.
Proof.
  intros Hs Hrecent. unfold time_to_minutes.
  destruct s as [|c s]; [done|].
  rewrite bool_decide_eq_false_2 by congruence.
  change (negb (truthy (PyStr (c :: s))) || false) with false. cbv iota.
  change (lower (PyStr (c :: s))) with (Ret (py_lower (c :: s))).
  rewrite bind_ret. cbv zeta.
  pose proof (findall_digits_aux_runs (py_lower (c :: s)) [] (Forall_nil_2 _)) as Hruns.
  fold (findall_digits (py_lower (c :: s))) in Hruns.
  destruct (findall_digits (py_lower (c :: s))) as [|n0 rest]; [done|].
  rewrite bool_decide_eq_false_2 by done.
  inversion_clear Hruns as [|? ? [Hne Hdig] _].
  change (index (n0 :: rest) 0) with (Ret n0).
  rewrite bind_ret, py_int_value by done.
  destruct (within_limit n0); [|done]. rewrite bind_ret.
  unfold spec_minutes. generalize (decimal_value n0). intros v.
  repeat case_match; f_equal; lia.
Qed.

End NormalizerFacts.

Lemma spec_minutes_nonneg `{!Interp} phrase value :
  0 ≤ value → 0 ≤ spec_minutes phrase value.
Proof.
  intros Hv. unfold spec_minutes.
  assert (0 ≤ value `div` 60) by (apply Z.div_pos; lia).
  repeat case_match; lia.
Qed.

Lemma spec_minutes_no_unit `{!Interp} phrase value :
  no_unit phrase → spec_minutes phrase value = 0.
Proof.
  unfold no_unit. rewrite !Forall_cons. intros (H1&H2&H3&H4&H5&H6&H7&H8&_).
  unfold spec_minutes. by rewrite H1, H2, H3, H4, H5, H6, H7, H8.
Qed.

Lemma time_to_minutes_falsy `{!Interp} :
  time_to_minutes PyNone = Ret 0 ∧ time_to_minutes (PyStr []) = Ret 0 ∧
  time_to_minutes (PyStr (u8 "Недавно")) = Ret 0.
Proof. done. Qed.

Lemma time_to_minutes_cases `{!Interp} (s : str) :
  time_to_minutes (PyStr s) = Ret 0 ∨
  ∃ n0 rest, findall_digits (py_lower s) = n0 :: rest ∧
    time_to_minutes (PyStr s) =
    if within_limit n0
    then Ret (spec_minutes (py_lower s) (decimal_value n0))
    else Raise ValueError.
Proof.
  destruct (decide (s = [])) as [->|Hs]; [by left|].
  destruct (decide (s = u8 "Недавно")) as [->|Hr]; [by left|].
  rewrite time_to_minutes_spec by done.
  destruct (findall_digits (py_lower s)) as [|n0 rest]; [by left|].
  right. eauto.
Qed.

Lemma time_to_minutes_within_limit `{!Interp} (time_str : pyval) :
  number_within_limit time_str = true →
  ∃ n, time_to_minutes time_str = Ret n ∧ 0 ≤ n.
Proof.
  destruct time_str as [|s]; [by exists 0|]. cbn [number_within_limit].
  destruct (time_to_minutes_cases s) as [H0|(n0 & rest & Hruns & Hn)].
  - exists 0. by rewrite H0.
  - rewrite Hruns. intros Hlimit. rewrite Hlimit in Hn.
    eexists. split; [exact Hn|].
    apply spec_minutes_nonneg, decimal_value_nonneg.
Qed.

(** C5, as the code has it. On every string whose number is within the
    limit of [int] - the first run of digits has no more digits than the
    limit, 4300 unless it is set otherwise - the recency normalizer
    returns, without an exception, and what it returns is a non-negative
    integer; among these strings a phrase with no digit and a phrase with
    no unit keyword both give 0, and so does [None], which the sort key
    can pass. On a string whose first run of digits is over the limit,
    [int] raises [ValueError], and the exception leaves the normalizer,
    which has no [try]. *)
Theorem time_to_minutes_raises_over_limit_only `{!Interp} (time_str : str) :
  (number_within_limit (PyStr time_str) = true →
   ∃ n, time_to_minutes (PyStr time_str) = Ret n ∧ 0 ≤ n ∧
        (findall_digits (py_lower time_str) = [] → n = 0) ∧
        (no_unit (py_lower time_str) → n = 0)) ∧
  (findall_digits (py_lower time_str) = [] →
   number_within_limit (PyStr time_str) = true) ∧
  (∀ run, time_str ≠ [] → time_str ≠ u8 "Недавно" →
     first_run (py_lower time_str) run → within_limit run = false →
     time_to_minutes (PyStr time_str) = Raise ValueError) ∧
  time_to_minutes PyNone = Ret 0.
Proof.
  split_and!; [| | |done].
  - cbn [number_within_limit].
    destruct (time_to_minutes_cases time_str) as [H0|(n0 & rest & Hruns & Hn)].
    + exists 0. by rewrite H0.
    + rewrite Hruns. intros Hlimit. rewrite Hlimit in Hn.
      eexists. split; [exact Hn|]. split; [|split].
      * apply spec_minutes_nonneg, decimal_value_nonneg.
      * done.
      * apply spec_minutes_no_unit.
  - cbn [number_within_limit]. by intros ->.
  - intros run Hs Hrecent Hrun Hlimit. rewrite time_to_minutes_spec by done.
    apply findall_digits_first in Hrun as [rest ->]. by rewrite Hlimit.
Qed.

(** "2 часа" on the reference interpreter. *)
Lemma time_to_minutes_raises_over_limit_only_witness :
  ∃ n, @time_to_minutes ref_interp (PyStr (u8 "2 часа")) = Ret n ∧ 0 ≤ n.
Proof.
  destruct (proj1 (@time_to_minutes_raises_over_limit_only ref_interp (u8 "2 часа")))
    as (n & Hn & Hpos & _); [reflexivity|].
  by exists n.
Defined.

(** A phrase of 4301 digits and a unit: [int] raises [ValueError] on the
    digits, under the limit of 4300, and so does the normalizer. *)
Lemma number_over_the_limit :
  @time_to_minutes ref_interp (PyStr (replicate 4301 57%N ++ u8 " минут"))
  = Raise ValueError.
Proof. vm_compute. reflexivity. Qed.

(** ** Agreement of the interpreters on the basic characters *)

Lemma basic_lower_cp c : basic c = true → lower_cp c = c.
Proof.
  unfold basic, lower_cp. intros Hb.
  rewrite !orb_true_iff, !andb_true_iff, !N.ltb_lt, !N.leb_le in Hb.
  destruct ((65 <=? c) && (c <=? 90))%N eqn:H1.
  { rewrite andb_true_iff, !N.leb_le in H1. lia. }
  destruct ((1040 <=? c) && (c <=? 1071))%N eqn:H2.
  { rewrite andb_true_iff, !N.leb_le in H2. lia. }
  destruct ((1024 <=? c) && (c <=? 1039))%N eqn:H3; [|done].
  rewrite andb_true_iff, !N.leb_le in H3. lia.
Qed.

Lemma forallb_rev_true {A} (f : A → bool) l :
  forallb f l = true → forallb f (rev l) = true.
Proof.
  rewrite !forallb_forall. intros Hl x Hx. apply Hl. by apply in_rev.
Qed.

Lemma ref_interp_standard : standard ref_interp.
Proof.
  split; [|done].
  intros s Hs. simpl.
  induction s as [|c s IH]; simpl; [done|].
  simpl in Hs. apply andb_true_iff in Hs as [Hc Hs].
  by rewrite basic_lower_cp, IH.
Qed.

Section Agreement.
Context (U : Interp) (HU : standard U).

Lemma basic_is_digit c :
  basic c = true → @is_digit U c = @is_digit ref_interp c.
Proof. intros Hc. unfold is_digit. by rewrite (std_decimal U HU). Qed.

Lemma basic_findall_digits_aux s cur :
  forallb basic s = true →
  @findall_digits_aux U s cur = @findall_digits_aux ref_interp s cur.
Proof.
  revert cur. induction s as [|c s IH]; intros cur Hs; simpl; [done|].
  simpl in Hs. apply andb_true_iff in Hs as [Hc Hs].
  rewrite basic_is_digit by done.
  destruct (@is_digit ref_interp c); [by apply IH|].
  destruct cur; by rewrite IH.
Qed.

Lemma basic_runs s cur :
  forallb basic s = true → forallb basic cur = true →
  Forall (λ r, forallb basic r = true) (@findall_digits_aux ref_interp s cur).
Proof.
  revert cur. induction s as [|c s IH]; intros cur Hs Hcur; simpl.
  - destruct cur as [|d cur]; [constructor|].
    constructor; [|constructor]. by apply forallb_rev_true.
  - simpl in Hs. apply andb_true_iff in Hs as [Hc Hs].
    destruct (@is_digit ref_interp c).
    + apply IH; [done|]. simpl. by rewrite Hc.
    + destruct cur as [|d cur]; [by apply IH|].
      constructor; [by apply forallb_rev_true|by apply IH].
Qed.

Lemma basic_int_digits r acc :
  forallb basic r = true →
  @int_digits U r acc = @int_digits ref_interp r acc.
Proof.
  revert acc. induction r as [|c r IH]; intros acc Hr; simpl; [done|].
  simpl in Hr. apply andb_true_iff in Hr as [Hc Hr].
  rewrite (std_decimal U HU) by done. simpl.
  destruct (ascii_decimal c); [by apply IH|done].
Qed.

Lemma findall_digits_aux_length s cur :
  Forall (λ r, (length r ≤ length s + length cur)%nat)
    (@findall_digits_aux ref_interp s cur).
Proof.
  revert cur. induction s as [|c s IH]; intros cur; simpl.
  - destruct cur as [|d cur]; [constructor|].
    constructor; [|constructor]. rewrite length_rev. simpl. lia.
  - destruct (@is_digit ref_interp c).
    + eapply Forall_impl; [apply IH|]. simpl. intros; lia.
    + destruct cur as [|d cur].
      * eapply Forall_impl; [apply IH|]. simpl. intros; lia.
      * constructor; [rewrite length_rev; simpl; lia|].
        eapply Forall_impl; [apply IH|]. simpl. intros; lia.
Qed.

Lemma short_within_limit r :
  limit_accepted U → (length r ≤ 640)%nat →
  @within_limit U r = true ∧ @within_limit ref_interp r = true.
Proof.
  intros Hmax Hr. unfold within_limit. split.
  - destruct Hmax as [->|Hmax]; [done|].
    apply orb_true_iff. right. apply Nat.leb_le. lia.
  - apply orb_true_iff. right. apply Nat.leb_le. cbn. lia.
Qed.

Lemma basic_time_to_minutes s :
  limit_accepted U → forallb basic s = true → (length s ≤ 640)%nat →
  @time_to_minutes U (PyStr s) = @time_to_minutes ref_interp (PyStr s).
Proof.
  intros Hmax Hs Hlen. unfold time_to_minutes.
  destruct (negb (truthy (PyStr s)) || bool_decide (PyStr s = PyStr (u8 "Недавно")));
    [done|].
  unfold lower. rewrite (std_lower U HU), (std_lower _ ref_interp_standard) by done.
  rewrite !bind_ret. cbv zeta. unfold findall_digits.
  rewrite basic_findall_digits_aux by done.
  pose proof (basic_runs s [] Hs eq_refl) as Hruns.
  pose proof (findall_digits_aux_length s []) as Hlens.
  destruct (@findall_digits_aux ref_interp s []) as [|n0 rest]; [done|].
  rewrite !bool_decide_eq_false_2 by done.
  inversion_clear Hruns as [|? ? Hn0 _].
  inversion_clear Hlens as [|? ? Hlen0 _]. simpl in Hlen0.
  destruct (short_within_limit n0) as [HlimU Hlim]; [done|lia|].
  change (index (n0 :: rest) 0) with (Ret n0). rewrite !bind_ret.
  unfold py_int. destruct n0 as [|d n0]; [done|].
  by rewrite basic_int_digits, HlimU, Hlim.
Qed.

End Agreement.

(** C3, as the code has it. On an interpreter with the usual case mapping
    and digits, and a limit of [int] that it accepts, the normalizer maps the empty string and the sentinel
    "Недавно" to 0, "5 минут" to 5, "2 часа" to 120, "45 секунд" to 1,
    "3 дня" to 4320, "1 неделю" to 10080 and "garbled text" to 0. On every
    interpreter a phrase without digits gives 0; a phrase whose first run
    of digits is within the limit of [int] gives 0 when it has no unit
    keyword, and otherwise the value of that run, read in base 10, under
    the first unit found in the order seconds, minutes, hours, days,
    weeks, months: max(1, value div 60) for seconds and the value times 1,
    60, 1440, 10080, 43200 for the others; on a phrase whose first run of
    digits is over the limit [int] raises [ValueError] before any unit is
    looked for. The unit keywords are the Russian stems of the source. *)
Theorem recency_normalizer_table (U : Interp) (HU : standard U)
  (Hmax : limit_accepted U) :
  time_to_minutes (PyStr (u8 "")) = Ret 0 ∧
  time_to_minutes (PyStr (u8 "Недавно")) = Ret 0 ∧
  time_to_minutes (PyStr (u8 "5 минут")) = Ret 5 ∧
  time_to_minutes (PyStr (u8 "2 часа")) = Ret 120 ∧
  time_to_minutes (PyStr (u8 "45 секунд")) = Ret 1 ∧
  time_to_minutes (PyStr (u8 "3 дня")) = Ret 4320 ∧
  time_to_minutes (PyStr (u8 "1 неделю")) = Ret 10080 ∧
  time_to_minutes (PyStr (u8 "garbled text")) = Ret 0 ∧
  (∀ s, findall_digits (py_lower s) = [] → time_to_minutes (PyStr s) = Ret 0) ∧
  (∀ s, number_within_limit (PyStr s) = true → no_unit (py_lower s) →
     time_to_minutes (PyStr s) = Ret 0) ∧
  (∀ s run, s ≠ [] → s ≠ u8 "Недавно" → first_run (py_lower s) run →
     within_limit run = true →
     time_to_minutes (PyStr s) = Ret (spec_minutes (py_lower s) (decimal_value run))) ∧
  (∀ s run, s ≠ [] → s ≠ u8 "Недавно" → first_run (py_lower s) run →
     within_limit run = false →
     time_to_minutes (PyStr s) = Raise ValueError).
Proof.
  do 2 (split; [done|]).
  do 6 (split; [by rewrite (basic_time_to_minutes U HU)
                     by first [done|apply Nat.leb_le; reflexivity]|]).
  split_and!.
  - intros s Hs. destruct (time_to_minutes_cases s) as [H0|(n0 & rest & Hr & _)];
      [done|congruence].
  - intros s Hlimit Hs. cbn [number_within_limit] in Hlimit.
    destruct (time_to_minutes_cases s) as [H0|(n0 & rest & Hr & Hn)]; [done|].
    rewrite Hr in Hlimit. by rewrite Hn, Hlimit, spec_minutes_no_unit.
  - intros s run Hs Hrecent Hrun Hlimit. rewrite time_to_minutes_spec by done.
    apply findall_digits_first in Hrun as [rest ->]. by rewrite Hlimit.
  - intros s run Hs Hrecent Hrun Hlimit. rewrite time_to_minutes_spec by done.
    apply findall_digits_first in Hrun as [rest ->]. by rewrite Hlimit.
Qed.

(** The reference interpreter is a standard one, and the table holds on it. *)
Lemma ref_interp_limit_accepted : limit_accepted ref_interp.
Proof. right. cbn. lia. Qed.

Lemma recency_normalizer_table_witness :
  standard ref_interp ∧ limit_accepted ref_interp ∧
  @time_to_minutes ref_interp (PyStr (u8 "2 часа")) = Ret 120.
Proof.
  split; [exact ref_interp_standard|]. split; [exact ref_interp_limit_accepted|].
  apply (recency_normalizer_table ref_interp ref_interp_standard
           ref_interp_limit_accepted).
Defined.

(** With English unit words - "5 minutes", "2 hours", "45 seconds",
    "3 days", "1 week" - a phrase has a number and none of the unit
    keywords of the code, and the normalizer returns 0. *)
Lemma minutes_in_english :
  @time_to_minutes ref_interp (PyStr (u8 "5 minutes")) = Ret 0 ∧
  @time_to_minutes ref_interp (PyStr (u8 "5 minutes")) ≠ Ret 5 ∧
  @time_to_minutes ref_interp (PyStr (u8 "2 hours")) = Ret 0 ∧
  @time_to_minutes ref_interp (PyStr (u8 "45 seconds")) = Ret 0 ∧
  @time_to_minutes ref_interp (PyStr (u8 "3 days")) = Ret 0 ∧
  @time_to_minutes ref_interp (PyStr (u8 "1 week")) = Ret 0.
Proof. split_and!; [reflexivity|discriminate|reflexivity..]. Qed.

(** ** The sort of the aggregator *)

Lemma mapM_total {A B} (f : A → outcome B) (g : A → B) l :
  Forall (λ x, f x = Ret (g x)) l → mapM f l = Ret (g <$> l).
Proof.
  induction 1 as [|x l Hx Hl IH]; simpl; [done|].
  by rewrite Hx, bind_ret, IH, bind_ret.
Qed.

Lemma mapM_raises {A B} (f : A → outcome B) l :
  Exists (λ x, ∃ e, f x = Raise e) l → ∃ e, mapM f l = Raise e.
Proof.
  induction 1 as [x l [e He]|x l Hl [e IH]]; simpl.
  - exists e. by rewrite He.
  - destruct (f x) as [y|e']; [|by exists e'].
    exists e. by rewrite bind_ret, IH.
Qed.

Lemma computes_or_raises {A B} (f : A → outcome B) l :
  Forall (λ x, ∃ y, f x = Ret y) l ∨ Exists (λ x, ∃ e, f x = Raise e) l.
Proof.
  induction l as [|x l [IH|IH]].
  - left. constructor.
  - destruct (f x) as [y|e] eqn:Hx.
    + left. constructor; [by exists y|done].
    + right. left. by exists e.
  - right. by right.
Qed.

Lemma insert_desc_decorate {A} (key : A → Z) x l :
  insert_desc fst (key x, x) ((λ y, (key y, y)) <$> l) =
  (λ y, (key y, y)) <$> insert_desc key x l.
Proof.
  induction l as [|y l IH]; simpl; [done|].
  destruct (key x <? key y); simpl; [f_equal; exact IH|done].
Qed.

Lemma sort_desc_decorate {A} (key : A → Z) l :
  sort_desc fst (zip (key <$> l) l) = (λ y, (key y, y)) <$> sort_desc key l.
Proof.
  induction l as [|x l IH]; [done|].
  change (insert_desc fst (key x, x) (sort_desc fst (zip (key <$> l) l)) =
          (λ y, (key y, y)) <$> insert_desc key x (sort_desc key l)).
  rewrite IH. apply insert_desc_decorate.
Qed.

Lemma sorted_reverse_total {A} (f : A → outcome Z) (key : A → Z) l :
  Forall (λ x, f x = Ret (key x)) l → sorted_reverse f l = Ret (sort_desc key l).
Proof.
  intros Hf. unfold sorted_reverse.
  rewrite (mapM_total f key) by done. rewrite bind_ret, sort_desc_decorate.
  f_equal. rewrite <- list_fmap_compose. apply list_fmap_id.
Qed.

Lemma sorted_reverse_raises {A} (f : A → outcome Z) l :
  Exists (λ x, ∃ e, f x = Raise e) l → ∃ e, sorted_reverse f l = Raise e.
Proof.
  intros Hl. apply mapM_raises in Hl as [e He].
  exists e. unfold sorted_reverse. by rewrite He.
Qed.

Section SortOrders.
Context `{!Interp}.

Lemma published_key_ordinal x :
  (∃ n, published_key x = Ret n) → published_key x = Ret (recency_ordinal x).
Proof. intros [n Hn]. unfold recency_ordinal. by rewrite Hn. Qed.

Lemma published_key_within_limit x :
  number_within_limit (get_or x "published" (PyStr [])) = true →
  ∃ n, published_key x = Ret n.
Proof.
  intros Hlimit. apply time_to_minutes_within_limit in Hlimit as (n & Hn & _).
  by exists n.
Qed.

Lemma sorted_reverse_computes orders :
  Forall (λ x, ∃ n, published_key x = Ret n) orders →
  sorted_reverse published_key orders = Ret (sort_desc recency_ordinal orders).
Proof.
  intros Hkeys. apply sorted_reverse_total.
  eapply Forall_impl; [exact Hkeys|]. apply published_key_ordinal.
Qed.

Lemma sort_orders_by_time_eq orders :
  Forall (λ x, ∃ n, published_key x = Ret n) orders →
  _sort_orders_by_time orders = sort_desc recency_ordinal orders.
Proof.
  intros Hkeys. unfold _sort_orders_by_time.
  by rewrite sorted_reverse_computes.
Qed.

Lemma sort_orders_by_time_fallback orders :
  Exists (λ x, ∃ e, published_key x = Raise e) orders →
  _sort_orders_by_time orders = orders.
Proof.
  intros Hkeys. apply sorted_reverse_raises in Hkeys as [e He].
  unfold _sort_orders_by_time. by rewrite He.
Qed.

Lemma sort_orders_by_time_perm orders : _sort_orders_by_time orders ≡ₚ orders.
Proof.
  destruct (computes_or_raises published_key orders) as [Hkeys|Hkeys].
  - rewrite sort_orders_by_time_eq by done. apply sort_desc_perm.
  - by rewrite sort_orders_by_time_fallback.
Qed.

End SortOrders.

(** C1, as the code has it. [_sort_orders_by_time] returns a rearrangement
    of its argument. When the key of every order is computed - as it is
    for an order whose published string has its number within the limit
    of [int] - the fallback is not taken: the orders come by recency
    ordinal, largest (oldest) first and 0 (most recent) last, and orders
    of equal ordinal keep the order they arrived in; the result is the
    only list that is descending and has, for every ordinal, the orders of
    that ordinal in their order of arrival; orders arriving with the
    ordinals 120, 0, 60 leave as 120, 60, 0. When the key of some order
    raises, [sorted] raises and the fallback returns the argument as it
    arrived, sorted or not. *)
Theorem sort_orders_by_time_stable `{!Interp} (orders : list order) :
  let sorted_orders := _sort_orders_by_time orders in
  sorted_orders ≡ₚ orders ∧
  (∀ x, number_within_limit (get_or x "published" (PyStr [])) = true →
        ∃ n, published_key x = Ret n) ∧
  (Forall (λ x, ∃ n, published_key x = Ret n) orders →
   sorted_reverse published_key orders = Ret sorted_orders ∧
   StronglySorted (desc recency_ordinal) sorted_orders ∧
   (∀ k, filter (λ x, recency_ordinal x = k) sorted_orders =
         filter (λ x, recency_ordinal x = k) orders) ∧
   (∀ l, StronglySorted (desc recency_ordinal) l →
         (∀ k, filter (λ x, recency_ordinal x = k) l =
               filter (λ x, recency_ordinal x = k) orders) →
         l = sorted_orders) ∧
   (∀ a b c, orders = [a; b; c] →
      recency_ordinal a = 120 → recency_ordinal b = 0 → recency_ordinal c = 60 →
      sorted_orders = [a; c; b] ∧ recency_ordinal <$> sorted_orders = [120; 60; 0])) ∧
  (Exists (λ x, ∃ e, published_key x = Raise e) orders →
   (∃ e, sorted_reverse published_key orders = Raise e) ∧
   sorted_orders = orders).
Proof.
  cbv zeta. split_and!.
  - apply sort_orders_by_time_perm.
  - apply published_key_within_limit.
  - intros Hkeys. rewrite sort_orders_by_time_eq by done. split_and!.
    + by apply sorted_reverse_computes.
    + apply sort_desc_sorted.
    + intros k. apply sort_desc_stable.
    + intros l Hl Hf. apply (sorted_stable_unique recency_ordinal); [done| |].
      * apply sort_desc_sorted.
      * intros k. by rewrite Hf, sort_desc_stable.
    + intros a b c -> Ha Hb Hc.
      assert (sort_desc recency_ordinal [a; b; c] = [a; c; b]) as ->.
      { unfold sort_desc. cbn [foldr fold_right insert_desc].
        rewrite Hb, Hc. cbn [insert_desc Z.ltb Z.compare]. by rewrite Ha, Hc. }
      split; [done|]. cbn [fmap list_fmap]. by rewrite Ha, Hb, Hc.
  - intros Hkeys. split.
    + by apply sorted_reverse_raises.
    + by apply sort_orders_by_time_fallback.
Qed.

(** Three orders published "2 часа", "Недавно" and "60 минут" ago. *)
Lemma sort_orders_by_time_stable_witness :
  @recency_ordinal ref_interp <$>
    @_sort_orders_by_time ref_interp
      [order_of "1" "2 часа"; order_of "2" "Недавно"; order_of "3" "60 минут"]
  = [120; 60; 0].
Proof.
  eapply (@sort_orders_by_time_stable ref_interp); [|reflexivity..].
  repeat constructor; eexists; reflexivity.
Defined.

(** Two orders published "5 минут" and "2 часа" ago, followed by one whose
    published string has a number of 4301 digits: on the last one the key
    raises, and the three orders leave as they came, the ordinal 5 before
    the ordinal 120. *)
Lemma overlong_number_leaves_unsorted :
  @_sort_orders_by_time ref_interp with_overlong = with_overlong ∧
  @published_key ref_interp <$> with_overlong = [Ret 5; Ret 120; Raise ValueError].
Proof. split; vm_compute; reflexivity. Qed.

(** ** Seen sets *)

Lemma order_id_truthy x i :
  order_id x = Some i ↔ get x "id" = PyStr i ∧ truthy (PyStr i) = true.
Proof.
  unfold order_id. destruct (get x "id") as [|[|c s]].
  - split; [done|]. by intros [? _].
  - split; [done|]. intros [Hi Ht]. injection Hi as <-. done.
  - split.
    + intros Hi. injection Hi as <-. done.
    + intros [Hi _]. by injection Hi as <-.
Qed.

Lemma order_id_none x :
  order_id x = None ↔ truthy (get x "id") = false.
Proof. unfold order_id. by destruct (get x "id") as [|[|c s]]. Qed.

Lemma new_orders_loop_cons x rest sent :
  new_orders_loop (x :: rest) sent =
  match order_id x with
  | Some i =>
      if decide (i ∈ sent) then new_orders_loop rest sent
      else ((x :: (new_orders_loop rest ({[i]} ∪ sent)).1),
            (new_orders_loop rest ({[i]} ∪ sent)).2)
  | None => new_orders_loop rest sent
  end.
Proof.
  simpl. unfold order_id. destruct (get x "id") as [|[|c s]]; [done..|].
  simpl. case_decide; case_bool_decide; try done.
  by destruct (new_orders_loop rest _).
Qed.

Lemma filter_unique_loop_cons x rest seen sent :
  filter_unique_loop (x :: rest) seen sent =
  match order_id x with
  | Some i =>
      if decide (i ∈ seen ∪ sent) then filter_unique_loop rest seen sent
      else ((x :: (filter_unique_loop rest ({[i]} ∪ seen) ({[i]} ∪ sent)).1),
            (filter_unique_loop rest ({[i]} ∪ seen) ({[i]} ∪ sent)).2)
  | None => filter_unique_loop rest seen sent
  end.
Proof.
  simpl. unfold order_id. destruct (get x "id") as [|[|c s]]; [done..|].
  simpl. case_decide; repeat case_bool_decide; simpl; try done; try set_solver.
  by destruct (filter_unique_loop rest _ _).
Qed.

(** The aggregator's loop is the adapters' loop on the union of its two
    sets, as long as the local set is part of the other. *)
Lemma filter_unique_loop_new orders seen sent :
  seen ⊆ sent →
  filter_unique_loop orders seen sent = new_orders_loop orders sent.
Proof.
  revert seen sent. induction orders as [|x rest IH]; intros seen sent Hsub;
    [done|].
  rewrite filter_unique_loop_cons, new_orders_loop_cons.
  destruct (order_id x) as [i|]; [|by apply IH].
  repeat case_decide; try (by apply IH);
    try (by rewrite IH by set_solver); set_solver.
Qed.

Lemma filter_unique_orders_new orders sent :
  _filter_unique_orders orders sent = new_orders_loop orders sent.
Proof. apply filter_unique_loop_new. set_solver. Qed.

Lemma new_orders_loop_spec all sent :
  let '(new, sent') := new_orders_loop all sent in
  new `sublist_of` all ∧
  NoDup (order_ids new) ∧
  Forall (λ x, truthy (get x "id") = true) new ∧
  (∀ i, i ∈ order_ids new ↔ i ∈ order_ids all ∧ i ∉ sent) ∧
  sent' = sent ∪ list_to_set (order_ids new).
Proof.
  revert sent. induction all as [|x rest IH]; intros sent.
  { simpl. split_and!; [done|constructor|done|set_solver|set_solver]. }
  rewrite new_orders_loop_cons.
  unfold order_ids at 3. cbn [omap list_omap]. fold (order_ids rest).
  destruct (order_id x) as [i|] eqn:Hid.
  - destruct (decide (i ∈ sent)) as [Hin|Hin].
    + specialize (IH sent). destruct (new_orders_loop rest sent) as [new sent'].
      destruct IH as (Hsub & Hnd & Htr & Hids & Hsent).
      split_and!; [by apply sublist_cons|done|done| |done].
      intros j. rewrite Hids. set_solver.
    + specialize (IH ({[i]} ∪ sent)).
      destruct (new_orders_loop rest ({[i]} ∪ sent)) as [new sent'].
      destruct IH as (Hsub & Hnd & Htr & Hids & Hsent). simpl.
      unfold order_ids at 1 2 3. cbn [omap list_omap]. rewrite Hid.
      fold (order_ids new).
      split_and!.
      * by apply sublist_skip.
      * constructor; [|done]. rewrite Hids. set_solver.
      * constructor; [|done]. apply order_id_truthy in Hid as [-> ?]. done.
      * intros j. rewrite !elem_of_cons, Hids. split; [set_solver|].
        intros [[->|Hj] Hns]; [by left|].
        destruct (decide (j = i)) as [->|Hne]; [by left|right]. set_solver.
      * rewrite Hsent. set_solver.
  - specialize (IH sent). destruct (new_orders_loop rest sent) as [new sent'].
    destruct IH as (Hsub & Hnd & Htr & Hids & Hsent).
    split_and!; [by apply sublist_cons|done|done|done|done].
Qed.

Lemma has_id_order_id x i :
  i ≠ [] → has_id i x = true ↔ order_id x = Some i.
Proof.
  intros Hi. unfold has_id. rewrite bool_decide_eq_true, order_id_truthy.
  destruct i; [done|]. naive_solver.
Qed.

(** First occurrence wins: the order kept for an id is the first order of
    the input with that id, and none is kept for an id already seen. *)
Lemma new_orders_loop_find all sent i :
  i ≠ [] →
  find (has_id i) (new_orders_loop all sent).1 =
  if decide (i ∈ sent) then None else find (has_id i) all.
Proof.
  intros Hi. revert sent. induction all as [|x rest IH]; intros sent.
  { simpl. by case_decide. }
  rewrite new_orders_loop_cons. cbn [find].
  pose proof (has_id_order_id x i Hi) as Hx.
  destruct (order_id x) as [j|] eqn:Hid.
  - destruct (decide (j ∈ sent)) as [Hj|Hj].
    + rewrite IH. case_decide; [done|].
      destruct (has_id i x); [|done].
      destruct Hx as [Hx _]. specialize (Hx eq_refl). naive_solver.
    + cbn [fst find]. rewrite IH.
      destruct (has_id i x).
      * destruct Hx as [Hx _]. specialize (Hx eq_refl). injection Hx as ->.
        by rewrite decide_False.
      * assert (i ≠ j) by (intros ->; naive_solver).
        repeat case_decide; try done; set_solver.
  - rewrite IH. destruct (has_id i x); [|done].
    destruct Hx as [Hx _]. by specialize (Hx eq_refl).
Qed.

Lemma order_ids_app l1 l2 : order_ids (l1 ++ l2) = order_ids l1 ++ order_ids l2.
Proof. apply omap_app. Qed.

Lemma order_ids_perm l1 l2 : l1 ≡ₚ l2 → order_ids l1 ≡ₚ order_ids l2.
Proof. intros H. unfold order_ids. by rewrite H. Qed.

Lemma filter_has_id_length i l :
  i ≠ [] →
  length (filter (λ x, has_id i x = true) l) =
  length (filter (λ j, j = i) (order_ids l)).
Proof.
  intros Hi. induction l as [|x l IH]; [done|].
  rewrite filter_cons. unfold order_ids. cbn [omap list_omap]. fold (order_ids l).
  pose proof (has_id_order_id x i Hi) as Hx.
  destruct (order_id x) as [j|].
  - rewrite filter_cons. repeat case_decide; simpl; rewrite ?IH; try done.
    + naive_solver.
    + subst j. naive_solver.
  - case_decide; [naive_solver|done].
Qed.

Lemma filter_eq_not_elem_of (i : str) (l : list str) :
  i ∉ l → filter (λ j, j = i) l = [].
Proof.
  induction l as [|j l IH]; [done|]. intros Hi.
  rewrite filter_cons. rewrite not_elem_of_cons in Hi. destruct Hi as [Hne Hi].
  rewrite decide_False by done. by apply IH.
Qed.

Lemma NoDup_filter_eq_length (i : str) (l : list str) :
  NoDup l → i ∈ l → length (filter (λ j, j = i) l) = 1%nat.
Proof.
  induction 1 as [|j l Hj Hl IH]; [by intros ?%elem_of_nil|].
  intros Hin. rewrite filter_cons. case_decide as Hji.
  - subst j. by rewrite filter_eq_not_elem_of.
  - apply IH. apply elem_of_cons in Hin as [->|Hin]; done.
Qed.

Lemma new_orders_loop_proj all sent :
  (new_orders_loop all sent).1 `sublist_of` all ∧
  NoDup (order_ids (new_orders_loop all sent).1) ∧
  Forall (λ x, truthy (get x "id") = true) (new_orders_loop all sent).1 ∧
  (∀ i, i ∈ order_ids (new_orders_loop all sent).1 ↔
        i ∈ order_ids all ∧ i ∉ sent) ∧
  (new_orders_loop all sent).2 =
    sent ∪ list_to_set (order_ids (new_orders_loop all sent).1).
Proof.
  pose proof (new_orders_loop_spec all sent) as Hs.
  by destruct (new_orders_loop all sent).
Qed.

Section System.
Context `{!Interp}.

Lemma get_new_orders_unfold env pages st :
  CombinedParser.get_new_orders env pages st =
  let fs :=
    FreelanceSpaceParserSimple.get_new_orders (fs_post env) (fs_parse env) pages
      (fs_sent st) in
  let fl := FLParser.get_new_orders (fl_page env) (fl_sent st) in
  let un := new_orders_loop (fs.1 ++ fl.1) (sent_orders st) in
  (_sort_orders_by_time un.1, State fs.2 fl.2 un.2).
Proof.
  unfold CombinedParser.get_new_orders.
  destruct (FreelanceSpaceParserSimple.get_new_orders _ _ _ _) as [a fs'].
  destruct (FLParser.get_new_orders _ _) as [b fl'].
  rewrite filter_unique_orders_new. simpl.
  by destruct (new_orders_loop _ _).
Qed.

Lemma order_ids_sorted l : order_ids (_sort_orders_by_time l) ≡ₚ order_ids l.
Proof.
  apply order_ids_perm. apply sort_orders_by_time_perm.
Qed.

Lemma reachable_seen_by_adapters st : reachable st → seen_by_adapters st.
Proof.
  induction 1 as [|env pages st _ IH]; [done|].
  rewrite get_new_orders_unfold. unfold seen_by_adapters in *. cbn [snd].
  cbv zeta. cbn [fs_sent fl_sent sent_orders].
  unfold FreelanceSpaceParserSimple.get_new_orders, FLParser.get_new_orders.
  set (all_fs := parse_orders _ _ _).
  set (all_fl := match fl_page env with Ret p => [] ++ p | Raise _ => [] end).
  destruct (new_orders_loop_proj all_fs (fs_sent st)) as (_ & _ & _ & _ & Hfs).
  destruct (new_orders_loop_proj all_fl (fl_sent st)) as (_ & _ & _ & _ & Hfl).
  set (nfs := (new_orders_loop all_fs (fs_sent st)).1) in *.
  set (nfl := (new_orders_loop all_fl (fl_sent st)).1) in *.
  destruct (new_orders_loop_proj (nfs ++ nfl) (sent_orders st))
    as (_ & _ & _ & Hids & Hun).
  rewrite Hfs, Hfl, Hun.
  intros i. rewrite !elem_of_union, !elem_of_list_to_set.
  intros [Hi|Hi]; [set_solver|].
  apply Hids in Hi as [Hi _]. rewrite order_ids_app, elem_of_app in Hi.
  tauto.
Qed.

Lemma get_new_orders_spec env pages st :
  NoDup (order_ids (CombinedParser.get_new_orders env pages st).1) ∧
  Forall (λ x, truthy (get x "id") = true)
    (CombinedParser.get_new_orders env pages st).1 ∧
  (∀ i, i ∈ order_ids (CombinedParser.get_new_orders env pages st).1 →
        i ∉ sent_orders st) ∧
  sent_orders (CombinedParser.get_new_orders env pages st).2 =
    sent_orders st ∪
      list_to_set (order_ids (CombinedParser.get_new_orders env pages st).1) ∧
  fs_sent st ⊆ fs_sent (CombinedParser.get_new_orders env pages st).2 ∧
  fl_sent st ⊆ fl_sent (CombinedParser.get_new_orders env pages st).2.
Proof.
  rewrite get_new_orders_unfold. cbv zeta. cbn [fst snd fs_sent fl_sent sent_orders].
  unfold FreelanceSpaceParserSimple.get_new_orders, FLParser.get_new_orders.
  set (all_fs := parse_orders _ _ _).
  set (all_fl := match fl_page env with Ret p => [] ++ p | Raise _ => [] end).
  destruct (new_orders_loop_proj all_fs (fs_sent st)) as (_ & _ & _ & _ & Hfs).
  destruct (new_orders_loop_proj all_fl (fl_sent st)) as (_ & _ & _ & _ & Hfl).
  set (nfs := (new_orders_loop all_fs (fs_sent st)).1) in *.
  set (nfl := (new_orders_loop all_fl (fl_sent st)).1) in *.
  destruct (new_orders_loop_proj (nfs ++ nfl) (sent_orders st))
    as (_ & Hnd & Htr & Hids & Hun).
  set (un := (new_orders_loop (nfs ++ nfl) (sent_orders st)).1) in *.
  split_and!.
  - by rewrite order_ids_sorted.
  - by rewrite (sort_orders_by_time_perm un).
  - intros i. rewrite order_ids_sorted, Hids. tauto.
  - rewrite Hun. f_equal. apply set_eq. intros i. rewrite !elem_of_list_to_set.
    by rewrite order_ids_sorted.
  - rewrite Hfs. apply union_subseteq_l.
  - rewrite Hfl. apply union_subseteq_l.
Qed.

End System.

(** C2. [_filter_unique_orders] keeps a subsequence of its argument in
    which no id occurs twice; for every id the order kept is the first
    order of the argument with that id, and no order is kept for an id
    that the set of the aggregator already holds; the ids kept are added
    to that set. So an id that occurs in the argument and is not in the
    set leaves exactly once, and in every cycle of a process in which both
    adapters return an order with the id X, the aggregator returns exactly
    one order with the id X. *)
Theorem filter_unique_orders_first_wins `{!Interp} :
  (∀ orders sent,
     let unique_orders := (_filter_unique_orders orders sent).1 in
     unique_orders `sublist_of` orders ∧
     NoDup (order_ids unique_orders) ∧
     (∀ i, i ≠ [] →
        find (has_id i) unique_orders =
        if decide (i ∈ sent) then None else find (has_id i) orders) ∧
     (∀ i, i ≠ [] → i ∈ order_ids orders → i ∉ sent →
        length (filter (λ x, has_id i x = true) unique_orders) = 1%nat) ∧
     (_filter_unique_orders orders sent).2 =
       sent ∪ list_to_set (order_ids unique_orders)) ∧
  (∀ env pages st X,
     reachable st →
     X ∈ order_ids
       (FreelanceSpaceParserSimple.get_new_orders (fs_post env) (fs_parse env)
          pages (fs_sent st)).1 →
     X ∈ order_ids (FLParser.get_new_orders (fl_page env) (fl_sent st)).1 →
     length (filter (λ x, has_id X x = true)
               (CombinedParser.get_new_orders env pages st).1)
       = 1%nat).
Proof.
  split.
  - intros orders sent. cbv zeta. rewrite filter_unique_orders_new.
    destruct (new_orders_loop_proj orders sent) as (Hsub & Hnd & _ & Hids & Hsent).
    split_and!; [done|done| | |done].
    + intros i Hi. by apply new_orders_loop_find.
    + intros i Hi Hin Hns. rewrite filter_has_id_length by done.
      apply NoDup_filter_eq_length; [done|]. by apply Hids.
  - intros env pages st X Hreach Hfs Hfl.
    apply reachable_seen_by_adapters in Hreach. unfold seen_by_adapters in Hreach.
    assert (X ≠ []) as HX.
    { intros ->. unfold order_ids in Hfl.
      apply list_elem_of_omap in Hfl as (x & _ & Hx).
      apply order_id_truthy in Hx as [_ Hx]. done. }
    rewrite filter_has_id_length by done.
    destruct (get_new_orders_spec env pages st) as (Hnd & _).
    apply NoDup_filter_eq_length; [done|].
    rewrite get_new_orders_unfold. cbv zeta. cbn [fst].
    rewrite order_ids_sorted.
    revert Hfs Hfl.
    unfold FreelanceSpaceParserSimple.get_new_orders, FLParser.get_new_orders.
    set (all_fs := parse_orders _ _ _).
    set (all_fl := match fl_page env with Ret p => [] ++ p | Raise _ => [] end).
    intros Hfs Hfl.
    apply new_orders_loop_proj. rewrite order_ids_app, elem_of_app.
    split; [by left|].
    apply new_orders_loop_proj in Hfs as [_ Hfs].
    apply new_orders_loop_proj in Hfl as [_ Hfl].
    intros Hin. apply Hreach in Hin. apply elem_of_union in Hin as [?|?]; done.
Qed.

(** The first cycle of a process in which both origins list the id "X". *)
Lemma filter_unique_orders_first_wins_witness :
  length (filter (λ x, has_id (u8 "X") x = true)
            (@CombinedParser.get_new_orders ref_interp both_list_X 3 initial).1) = 1%nat.
Proof.
  apply (@filter_unique_orders_first_wins ref_interp).
  - apply reachable_initial.
  - vm_compute. apply list_elem_of_here.
  - vm_compute. apply list_elem_of_here.
Defined.

(** ** Processes *)

Section Process.
Context {E St : Type} (step : E → St → list order * St) (seen : St → gset str).
Hypothesis step_fresh :
  ∀ e st i, i ∈ order_ids (step e st).1 → i ∉ seen st.
Hypothesis step_marks :
  ∀ e st, seen st ∪ list_to_set (order_ids (step e st).1) ⊆ seen (step e st).2.

Lemma run_cons e es st :
  run step (e :: es) st = (step e st).1 :: run step es (step e st).2.
Proof. simpl. by destruct (step e st). Qed.

Lemma run_seen envs st m out i :
  run step envs st !! m = Some out → i ∈ seen st → i ∉ order_ids out.
Proof.
  revert st m. induction envs as [|e es IH]; intros st m Hm Hi; [done|].
  rewrite run_cons in Hm. destruct m as [|m]; simpl in Hm.
  - injection Hm as <-. intros Hin. by apply step_fresh in Hin.
  - eapply IH; [done|]. apply step_marks. set_solver.
Qed.

Lemma run_never_again envs st n m out_n out_m i :
  (n < m)%nat →
  run step envs st !! n = Some out_n → run step envs st !! m = Some out_m →
  i ∈ order_ids out_n → i ∉ order_ids out_m.
Proof.
  revert st n m. induction envs as [|e es IH]; intros st n m Hnm Hn Hm Hi;
    [done|].
  rewrite run_cons in Hn, Hm.
  destruct m as [|m]; [lia|]. simpl in Hm.
  destruct n as [|n]; simpl in Hn.
  - injection Hn as <-. eapply run_seen; [done|].
    apply step_marks. rewrite elem_of_union, elem_of_list_to_set. by right.
  - eapply (IH _ n m); [lia|done..].
Qed.

End Process.

(** C4. In a process, an id that a call of [get_new_orders] has returned
    is in no result of a later call: this holds for the calls of the
    FreelanceSpace adapter, for those of the FL.ru adapter and for the
    cycles of the aggregator, whatever the origins answer. No result holds
    an id twice. Every call adds the ids it returns to the seen set it
    owns, and leaves in it what it held. *)
Theorem seen_id_never_returned_again `{!Interp} :
  (∀ calls sent n m out_n out_m i,
     (n < m)%nat →
     run fs_step calls sent !! n = Some out_n →
     run fs_step calls sent !! m = Some out_m →
     i ∈ order_ids out_n → i ∉ order_ids out_m) ∧
  (∀ calls sent n m out_n out_m i,
     (n < m)%nat →
     run fl_step calls sent !! n = Some out_n →
     run fl_step calls sent !! m = Some out_m →
     i ∈ order_ids out_n → i ∉ order_ids out_m) ∧
  (∀ calls st n m out_n out_m i,
     (n < m)%nat →
     run cycle_step calls st !! n = Some out_n →
     run cycle_step calls st !! m = Some out_m →
     i ∈ order_ids out_n → i ∉ order_ids out_m) ∧
  (∀ call sent,
     NoDup (order_ids (fs_step call sent).1) ∧
     (fs_step call sent).2 = sent ∪ list_to_set (order_ids (fs_step call sent).1)) ∧
  (∀ call sent,
     NoDup (order_ids (fl_step call sent).1) ∧
     (fl_step call sent).2 = sent ∪ list_to_set (order_ids (fl_step call sent).1)) ∧
  (∀ call st,
     NoDup (order_ids (cycle_step call st).1) ∧
     sent_orders (cycle_step call st).2 =
       sent_orders st ∪ list_to_set (order_ids (cycle_step call st).1) ∧
     fs_sent st ⊆ fs_sent (cycle_step call st).2 ∧
     fl_sent st ⊆ fl_sent (cycle_step call st).2).
Proof.
  assert (∀ call sent,
     NoDup (order_ids (fs_step call sent).1) ∧
     (∀ i, i ∈ order_ids (fs_step call sent).1 → i ∉ sent) ∧
     (fs_step call sent).2 = sent ∪ list_to_set (order_ids (fs_step call sent).1))
    as Hfs.
  { intros [[post parse] max_pages] sent.
    unfold fs_step, FreelanceSpaceParserSimple.get_new_orders.
    destruct (new_orders_loop_proj (parse_orders post parse max_pages) sent)
      as (_ & Hnd & _ & Hids & Hsent).
    split_and!; [done| |done]. intros i Hi. by apply Hids in Hi as [_ ?]. }
  assert (∀ call sent,
     NoDup (order_ids (fl_step call sent).1) ∧
     (∀ i, i ∈ order_ids (fl_step call sent).1 → i ∉ sent) ∧
     (fl_step call sent).2 = sent ∪ list_to_set (order_ids (fl_step call sent).1))
    as Hfl.
  { intros page sent. unfold fl_step, FLParser.get_new_orders.
    set (all := match page with Ret p => [] ++ p | Raise _ => [] end).
    destruct (new_orders_loop_proj all sent) as (_ & Hnd & _ & Hids & Hsent).
    split_and!; [done| |done]. intros i Hi. by apply Hids in Hi as [_ ?]. }
  assert (∀ call st,
     NoDup (order_ids (cycle_step call st).1) ∧
     (∀ i, i ∈ order_ids (cycle_step call st).1 → i ∉ sent_orders st) ∧
     sent_orders (cycle_step call st).2 =
       sent_orders st ∪ list_to_set (order_ids (cycle_step call st).1) ∧
     fs_sent st ⊆ fs_sent (cycle_step call st).2 ∧
     fl_sent st ⊆ fl_sent (cycle_step call st).2) as Hcy.
  { intros [env pages] st. unfold cycle_step. cbn [fst snd].
    destruct (get_new_orders_spec env pages st) as (Hnd & _ & Hfresh & Hsent & H1 & H2).
    done. }
  split_and!.
  - intros calls sent. apply (run_never_again fs_step id).
    + intros e st i. apply Hfs.
    + intros e st. destruct (Hfs e st) as (_ & _ & ->). done.
  - intros calls sent. apply (run_never_again fl_step id).
    + intros e st i. apply Hfl.
    + intros e st. destruct (Hfl e st) as (_ & _ & ->). done.
  - intros calls st. apply (run_never_again cycle_step sent_orders).
    + intros e st' i. apply Hcy.
    + intros e st'. destruct (Hcy e st') as (_ & _ & -> & _). done.
  - intros call sent. destruct (Hfs call sent) as (? & _ & ?). done.
  - intros call sent. destruct (Hfl call sent) as (? & _ & ?). done.
  - intros call st. destruct (Hcy call st) as (? & _ & ? & ? & ?). done.
Qed.

(** Two cycles in which both origins list the id "X": the second cycle does
    not return it. *)
Lemma seen_id_never_returned_again_witness :
  let first_cycle := @CombinedParser.get_new_orders ref_interp both_list_X 3 initial in
  u8 "X" ∉
    order_ids (@CombinedParser.get_new_orders ref_interp both_list_X 3 first_cycle.2).1.
Proof.
  pose proof (@seen_id_never_returned_again ref_interp) as (_ & _ & Hcycles & _).
  apply (Hcycles [(both_list_X, 3%nat); (both_list_X, 3%nat)] initial 0%nat 1%nat
           (@CombinedParser.get_new_orders ref_interp both_list_X 3 initial).1).
  - lia.
  - reflexivity.
  - reflexivity.
  - vm_compute. apply list_elem_of_here.
Defined.

(** ** Orders without an id *)

Lemma new_orders_loop_falsy o pre post sent :
  truthy (get o "id") = false →
  new_orders_loop (pre ++ o :: post) sent = new_orders_loop (pre ++ post) sent.
Proof.
  intros Ho. apply order_id_none in Ho.
  revert sent. induction pre as [|x pre IH]; intros sent.
  - simpl app. by rewrite new_orders_loop_cons, Ho.
  - rewrite <- !app_comm_cons, !new_orders_loop_cons.
    destruct (order_id x); [|done]. case_decide; by rewrite IH.
Qed.

(** C10, as the code has it. An order whose id is missing, [None] or the
    empty string does not leave [_filter_unique_orders], and the filter
    returns the orders and the seen set it would return without that order
    in its argument; no result of the aggregator holds such an order, so
    none is handed to the notifier. Such an order does not pass the filter
    of an adapter either: the loop of the adapters has the same guard. *)
Theorem falsy_id_never_delivered `{!Interp} (o : order) :
  o !! "id" = None ∨ o !! "id" = Some PyNone ∨ o !! "id" = Some (PyStr []) →
  (∀ pre post sent,
     _filter_unique_orders (pre ++ o :: post) sent =
     _filter_unique_orders (pre ++ post) sent) ∧
  (∀ orders sent, o ∉ (_filter_unique_orders orders sent).1) ∧
  (∀ env pages st, o ∉ (CombinedParser.get_new_orders env pages st).1) ∧
  (∀ all_orders sent, o ∉ (new_orders_loop all_orders sent).1).
Proof.
  intros Hid.
  assert (truthy (get o "id") = false) as Ho.
  { unfold get. by destruct Hid as [->|[->| ->]]. }
  assert (∀ all_orders sent, o ∉ (new_orders_loop all_orders sent).1) as Hloop.
  { intros all sent Hin.
    destruct (new_orders_loop_proj all sent) as (_ & _ & Htr & _).
    rewrite Forall_forall in Htr. apply Htr in Hin. congruence. }
  split_and!; [| | |done].
  - intros pre post sent. rewrite !filter_unique_orders_new.
    by apply new_orders_loop_falsy.
  - intros orders sent. rewrite filter_unique_orders_new. apply Hloop.
  - intros env pages st Hin.
    destruct (get_new_orders_spec env pages st) as (_ & Htr & _).
    rewrite Forall_forall in Htr. apply Htr in Hin. congruence.
Qed.

(** An order without an id between two orders with one. *)
Lemma falsy_id_never_delivered_witness :
  @_filter_unique_orders
    ([order_of "X" "2 часа"] ++ order_without_id :: [order_of "Y" "1 час"]) ∅ =
  @_filter_unique_orders ([order_of "X" "2 часа"] ++ [order_of "Y" "1 час"]) ∅.
Proof.
  apply (@falsy_id_never_delivered ref_interp order_without_id).
  left. reflexivity.
Defined.

(** An order without an id handed to an adapter by its origin: the
    adapter does not return it, and marks nothing. *)
Lemma order_without_id_stops_at_adapter :
  @FLParser.get_new_orders (Ret [order_without_id]) ∅ = ([], ∅) ∧
  @FreelanceSpaceParserSimple.get_new_orders ref_interp
    (λ _, Ret (Response 200 [])) (λ _ _, Ret [order_without_id]) 1 ∅ = ([], ∅).
Proof. split; reflexivity. Qed.

(** ** The page loop *)

Section PageLoop.
Context `{!Interp}.
Variable post : nat → outcome response.
Variable parse_html_response : str → nat → outcome (list order).

Lemma fetch_failure_breaks page :
  fetch_failure post page →
  page_step post parse_html_response page = inr Break.
Proof.
  unfold page_step, page_body.
  intros [->|[->|(r & -> & Hr)]]; [done..|].
  rewrite bind_ret. apply Z.eqb_neq in Hr. by rewrite Hr.
Qed.

Lemma page_gives_step page orders :
  page_gives post parse_html_response page orders →
  page_step post parse_html_response page ≠ inr Break ∧
  extracted post parse_html_response page = orders.
Proof.
  unfold extracted, page_step, page_body.
  intros [(r & -> & Hr & Hparse & Hne)|(e & Ht & Hc & -> & [->|(r & -> & Hr & Hparse)])].
  - rewrite bind_ret, Hr, Z.eqb_refl, Hparse, bind_ret.
    by rewrite bool_decide_eq_false_2.
  - by destruct e.
  - rewrite bind_ret, Hr, Z.eqb_refl, Hparse. by destruct e.
Qed.

Lemma pages_loop_until before page after all_orders requested :
  Forall (λ p, page_step post parse_html_response p ≠ inr Break) before →
  page_step post parse_html_response page = inr Break →
  pages_loop post parse_html_response (before ++ page :: after) all_orders requested =
  (all_orders ++ concat (extracted post parse_html_response <$> before),
   requested ++ before ++ [page]).
Proof.
  intros Hbefore Hpage. revert all_orders requested.
  induction Hbefore as [|p before Hp _ IH]; intros all_orders requested.
  - simpl. rewrite Hpage. by rewrite (app_nil_r all_orders).
  - cbn [app pages_loop fmap list_fmap concat].
    destruct (page_step post parse_html_response p) as [orders|[|]] eqn:Hstep;
      [|done|].
    + assert (extracted post parse_html_response p = orders) as ->
        by (unfold extracted; by rewrite Hstep).
      rewrite IH. simpl. by rewrite <- !app_assoc.
    + assert (extracted post parse_html_response p = []) as ->
        by (unfold extracted; by rewrite Hstep).
      rewrite IH. simpl. by rewrite <- !app_assoc.
Qed.

End PageLoop.

(** C6. In a cycle of the paginated adapter that reaches page k, a fetch
    failure on page k (a timeout, a connection error or a status other
    than 200) ends the loop: the pages requested are 1..k and no other,
    and the list [parse_orders] comes to is, sorted, the orders that
    [_parse_html_response] returned on the answers of the pages 1..k-1,
    all of them and no other; [get_new_orders] then returns those of them
    whose id is new. No exception of the request leaves the call. The call
    itself returns this list when the clock has moved between its first
    and its last line, and raises [ZeroDivisionError] in its log line when
    the two readings of the clock are equal. *)
Theorem parse_orders_fetch_failure `{!Interp}
  (post : nat → outcome response)
  (parse_html_response : str → nat → outcome (list order))
  (max_pages k : nat) (found : nat → list order) :
  (1 ≤ k ≤ max_pages)%nat →
  (∀ p, (1 ≤ p < k)%nat → page_gives post parse_html_response p (found p)) →
  fetch_failure post k →
  let before := concat (found <$> seq 1 (k - 1)) in
  parse_orders_trace post parse_html_response max_pages =
    (_sort_orders_by_time before, seq 1 k) ∧
  parse_orders post parse_html_response max_pages ≡ₚ before ∧
  (∀ sent i, i ∈ order_ids before → i ∉ sent →
     i ∈ order_ids
           (FreelanceSpaceParserSimple.get_new_orders post parse_html_response
              max_pages sent).1) ∧
  (∀ start_time end_time,
     parse_orders_call post parse_html_response start_time end_time max_pages =
     if decide (start_time = end_time) then Raise ZeroDivisionError
     else Ret (_sort_orders_by_time before)) ∧
  (∀ start_time end_time sent,
     start_time ≠ end_time →
     get_new_orders_call post parse_html_response start_time end_time max_pages
       sent =
     (Ret (FreelanceSpaceParserSimple.get_new_orders post parse_html_response
             max_pages sent).1,
      (FreelanceSpaceParserSimple.get_new_orders post parse_html_response
         max_pages sent).2)).
Proof.
  intros Hk Hreach Hfail. cbn zeta.
  assert (extracted post parse_html_response <$> seq 1 (k - 1) =
          found <$> seq 1 (k - 1)) as Hfound.
  { apply list_fmap_ext. intros j p Hp. apply list_elem_of_lookup_2 in Hp.
    apply elem_of_seq in Hp. apply page_gives_step, Hreach. lia. }
  assert (parse_orders_trace post parse_html_response max_pages =
    (_sort_orders_by_time (concat (found <$> seq 1 (k - 1))), seq 1 k))
    as Htrace.
  { unfold parse_orders_trace, page_range.
    replace max_pages with ((k - 1) + S (max_pages - k))%nat by lia.
    rewrite seq_app. cbn [seq].
    replace (1 + (k - 1))%nat with k by lia.
    rewrite pages_loop_until.
    - rewrite Hfound. simpl. do 2 f_equal.
      replace k with ((k - 1) + 1)%nat at 3 by lia.
      rewrite seq_app. simpl. do 2 f_equal. lia.
    - apply Forall_forall. intros p Hp. apply elem_of_seq in Hp.
      apply (page_gives_step post parse_html_response p (found p)), Hreach. lia.
    - by apply fetch_failure_breaks. }
  assert (parse_orders post parse_html_response max_pages ≡ₚ
    concat (found <$> seq 1 (k - 1))) as Hperm.
  { unfold parse_orders. rewrite Htrace. cbn [fst].
    apply sort_orders_by_time_perm. }
  split_and!; [done..| | |].
  - intros sent i Hi Hns. unfold FreelanceSpaceParserSimple.get_new_orders.
    apply new_orders_loop_proj.
    split; [|done]. by rewrite (order_ids_perm _ _ Hperm).
  - intros start_time end_time. unfold parse_orders_call, parse_orders.
    rewrite Htrace. cbn [fst]. cbv zeta.
    destruct (decide (start_time = end_time)) as [->|Hne].
    + by rewrite Z.sub_diag.
    + destruct (Z.eqb_spec (end_time - start_time) 0) as [Heq|_]; [lia|done].
  - intros start_time end_time sent Hne.
    unfold get_new_orders_call, parse_orders_call. cbv zeta.
    destruct (Z.eqb_spec (end_time - start_time) 0) as [Heq|_]; [lia|].
    unfold FreelanceSpaceParserSimple.get_new_orders.
    by destruct (new_orders_loop _ sent).
Qed.

(** Three pages asked for, two orders on the first and a timeout on the
    second; the clock reads 5 at the first line of the call, and 5 again
    or 6 at its last line. *)
Lemma parse_orders_fetch_failure_witness :
  @parse_orders_trace ref_interp second_page_times_out two_orders 3 =
    ([order_of "8" "2 часа"; order_of "7" "5 минут"], [1; 2]%nat) ∧
  @parse_orders_call ref_interp second_page_times_out two_orders 5 6 3 =
    Ret [order_of "8" "2 часа"; order_of "7" "5 минут"] ∧
  @parse_orders_call ref_interp second_page_times_out two_orders 5 5 3 =
    Raise ZeroDivisionError.
Proof.
  destruct (@parse_orders_fetch_failure ref_interp second_page_times_out two_orders
              3%nat 2%nat (λ _, [order_of "7" "5 минут"; order_of "8" "2 часа"]))
    as (Htrace & _ & _ & Hcall & _).
  - lia.
  - intros p Hp. assert (p = 1%nat) as -> by lia.
    left. exists (Response 200 (u8 "page")). by split_and!.
  - left. reflexivity.
  - split_and!.
    + rewrite Htrace. reflexivity.
    + rewrite Hcall. reflexivity.
    + rewrite Hcall. reflexivity.
Defined.

(** A request that is refused at once, on a clock that reads the same at
    the first and the last line of the call: [parse_orders] and
    [get_new_orders] raise. *)
Lemma refused_request_on_a_still_clock :
  @parse_orders_call ref_interp (λ _, Raise ConnectionError) two_orders 5 5 1 =
    Raise ZeroDivisionError ∧
  @get_new_orders_call ref_interp (λ _, Raise ConnectionError) two_orders 5 5 1 ∅ =
    (Raise ZeroDivisionError, ∅).
Proof. split; reflexivity. Qed.

(** ** The block locator *)

Section LocatorFacts.
Variable soup : node.

Lemma in_blocks_rev p blocks :
  in_blocks soup p (rev blocks) = in_blocks soup p blocks.
Proof.
  unfold in_blocks. apply eq_true_iff_eq.
  rewrite !existsb_exists. setoid_rewrite <- in_rev. done.
Qed.

Lemma no_repeat_snoc blocks p :
  no_repeat soup (blocks ++ [p]) =
  negb (in_blocks soup p blocks) && no_repeat soup blocks.
Proof.
  unfold no_repeat. rewrite rev_app_distr. simpl. by rewrite in_blocks_rev.
Qed.

Lemma walk_up_new_fresh depth parent blocks p :
  walk_up_new soup depth parent blocks = Some p →
  in_blocks soup p blocks = false.
Proof.
  revert parent. induction depth as [|depth IH]; intros parent; [done|].
  simpl. destruct parent as [q|]; [|done].
  destruct (block_at soup q && negb (in_blocks soup q blocks)) eqn:Hq.
  - intros [= ->]. apply andb_true_iff in Hq as [_ Hq].
    by apply negb_true_iff in Hq.
  - apply IH.
Qed.

Lemma method2_no_repeat blocks :
  no_repeat soup blocks = true → no_repeat soup (method2 soup blocks) = true.
Proof.
  unfold method2. revert blocks.
  induction css_selectors as [|selector selectors IH]; intros blocks Hb; [done|].
  cbn [fold_left]. apply IH. clear IH. revert blocks Hb.
  induction (select soup selector) as [|block found IH]; intros blocks Hb; [done|].
  cbn [fold_left]. apply IH.
  destruct (block_at soup block && negb (in_blocks soup block blocks)) eqn:Hnew;
    [|done].
  apply andb_true_iff in Hnew as [_ Hnew].
  by rewrite no_repeat_snoc, Hnew, Hb.
Qed.

Lemma method3_no_repeat blocks :
  no_repeat soup blocks = true → no_repeat soup (method3 soup blocks) = true.
Proof.
  unfold method3. revert blocks.
  induction (order_links soup) as [|link links IH]; intros blocks Hb; [done|].
  cbn [fold_left]. apply IH.
  destruct (walk_up_new soup 10 (find_parent link) blocks) as [p|] eqn:Hp;
    [|done].
  apply walk_up_new_fresh in Hp. cbn [append_found].
  by rewrite no_repeat_snoc, Hp, Hb.
Qed.

End LocatorFacts.

(** C7, on the code. In the document [two_buttons] the action phrase is on
    two buttons of one listing, and the locator lists that block twice:
    method 1 adds the block a button leads to without looking for it in
    the list. Methods 2 and 3 look first: on every document, if no block
    is repeated after method 1, none is repeated in the result. *)
Theorem action_cue_block_listed_twice :
  locate_order_blocks two_buttons = [[0%nat]; [0%nat]] ∧
  ¬ NoDup (locate_order_blocks two_buttons) ∧
  (∀ soup, no_repeat soup (method1 soup) = true →
           no_repeat soup (locate_order_blocks soup) = true).
Proof.
  assert (locate_order_blocks two_buttons = [[0%nat]; [0%nat]]) as Heq
    by (vm_compute; reflexivity).
  split_and!.
  - exact Heq.
  - rewrite Heq. intros Hnd. apply NoDup_cons in Hnd as [Hnd _].
    apply Hnd. left.
  - intros soup H1. unfold locate_order_blocks.
    by apply method3_no_repeat, method2_no_repeat.
Qed.

(** ** The author *)

(** A string that passes the guard of the second loop is not two equal
    halves: the branch that would keep one half is never taken. *)
Lemma two_halves_end_with_half (author_text : str) :
  let half_len := (length author_text / 2)%nat in
  take half_len author_text = drop half_len author_text →
  endswith (take half_len author_text) author_text = true.
Proof.
  cbv zeta. set (h := (length author_text / 2)%nat). intros Hhalves.
  assert (h ≤ length author_text)%nat as Hle.
  { subst h. apply Nat.Div0.div_le_upper_bound. lia. }
  assert (length author_text - h = h)%nat as Hlen.
  { apply (f_equal length) in Hhalves.
    rewrite length_take, length_drop in Hhalves. lia. }
  unfold endswith. rewrite length_take, Nat.min_l by done.
  apply andb_true_iff. split; [by apply Nat.leb_le|].
  unfold str_eqb. apply bool_decide_eq_true. by rewrite Hlen.
Qed.

Lemma second_loop_keeps_whole author_spans title author :
  second_loop author_spans title author = author ∨
  ∃ span, span ∈ author_spans ∧
          second_loop author_spans title author = get_text_strip span.
Proof.
  induction author_spans as [|span rest IH]; [by left|].
  assert (second_loop rest title author = author ∨
          ∃ s, s ∈ span :: rest ∧ second_loop rest title author = get_text_strip s)
    as IH'.
  { destruct IH as [IH|(s & Hs & IH)]; [by left|].
    right. exists s. split; [by right|done]. }
  cbn [second_loop]. cbv zeta.
  remember (get_text_strip span) as author_text eqn:Htext.
  destruct (bool_decide (u8 "font-semibold" ∈ get_class span)); [|done].
  destruct (is_name author_text title
            && negb (endswith (take (length author_text / 2) author_text)
                       author_text)) eqn:Hguard; [|done].
  destruct (2 <? length author_text)%nat; [|by left].
  destruct (str_eqb (take (length author_text / 2) author_text)
              (drop (length author_text / 2) author_text)) eqn:Hhalves.
  - apply andb_true_iff in Hguard as [_ Hguard].
    apply negb_true_iff in Hguard.
    apply bool_decide_eq_true in Hhalves.
    apply two_halves_end_with_half in Hhalves. congruence.
  - right. exists span. split; [left|done].
Qed.

(** C8, on the code. The listing [doubled_name] has the author "IvanIvan"
    in a span of class [font-semibold]: the second loop does not accept
    it, and the author is "Не указан", not "Ivan". The listing
    [doubled_name_wide] has it in the span for wide screens: the first
    loop takes it as it is, "IvanIvan". In no block does the second loop
    return half of a text: it returns the author it was given or the whole
    text of a span. A block without the author container gives
    "Не указан". *)
Theorem doubled_author_not_collapsed :
  (∀ U : Interp,
     (o ← @_extract_order_data U doubled_name; o !! "author") =
     Some (PyStr (u8 "Не указан"))) ∧
  extract_author doubled_name (u8 "Landing page") = u8 "Не указан" ∧
  extract_author doubled_name_wide (u8 "Landing page") = u8 "IvanIvan" ∧
  extract_author plain_name (u8 "Landing page") = u8 "Ivan" ∧
  (∀ author_spans title author,
     second_loop author_spans title author = author ∨
     ∃ span, span ∈ author_spans ∧
             second_loop author_spans title author = get_text_strip span) ∧
  (∀ block title,
     find_class "div" ["flex"; "items-start"; "md:items-center"; "gap-4"] block
       = None →
     extract_author block title = u8 "Не указан").
Proof.
  split_and!; [by vm_compute..| |].
  - apply second_loop_keeps_whole.
  - intros block title Hnone. unfold extract_author. by rewrite Hnone.
Qed.

(** ** Splitting *)

Lemma startswith_app sep s : startswith sep (sep ++ s) = true.
Proof.
  induction sep as [|c sep IH]; [done|]. simpl. by rewrite N.eqb_refl, IH.
Qed.

Lemma split_aux_skip sep x s cur :
  split_aux sep (x ++ s) (length x) cur = split_aux sep s 0 cur.
Proof. induction x as [|c x IH]; [done|]. simpl. apply IH. Qed.

Lemma split_aux_pass sep pre s cur :
  not_before sep (pre ++ s) (length pre) = true →
  split_aux sep (pre ++ s) 0 cur = split_aux sep s 0 (rev pre ++ cur).
Proof.
  revert cur. induction pre as [|c pre IH]; intros cur Hpre; [done|].
  cbn [app length not_before tail] in Hpre.
  apply andb_true_iff in Hpre as [Hc Hpre]. apply negb_true_iff in Hc.
  cbn [app split_aux]. rewrite Hc, IH by done.
  cbn [rev]. by rewrite <- app_assoc.
Qed.

Lemma split_aux_sep c sep s cur :
  split_aux (c :: sep) ((c :: sep) ++ s) 0 cur =
  rev cur :: split_aux (c :: sep) s 0 [].
Proof.
  pose proof (startswith_app (c :: sep) s) as Hst.
  cbn [app split_aux] in *. rewrite Hst. f_equal.
  replace (length (c :: sep) - 1)%nat with (length sep) by (simpl; lia).
  apply split_aux_skip.
Qed.

Lemma split_aux_head sep s cur :
  ∃ w pieces, split_aux sep s 0 cur = (rev cur ++ w) :: pieces.
Proof.
  revert cur. induction s as [|c s IH]; intros cur.
  - exists [], []. simpl. by rewrite app_nil_r.
  - cbn [split_aux]. destruct (startswith sep (c :: s)).
    + exists [], (split_aux sep s (length sep - 1) []). by rewrite app_nil_r.
    + destruct (IH (c :: cur)) as (w & pieces & ->).
      exists (c :: w), pieces. cbn [rev]. by rewrite <- app_assoc.
Qed.

Lemma not_before_absent c v w :
  c ∉ v → not_before [c] (v ++ w) (length v) = true.
Proof.
  induction v as [|d v IH]; intros Hn; [done|].
  apply not_elem_of_cons in Hn as [Hc Hn].
  cbn [app length not_before tail]. rewrite IH by done.
  simpl. destruct (N.eqb_spec c d); [congruence|done].
Qed.

(** Up to the first [&]. *)
Lemma split_amp_first v w :
  amp ∉ v → w = [] ∨ (∃ r, w = amp :: r) →
  index (split [amp] (v ++ w)) 0 = Ret v.
Proof.
  intros Hv Hw. unfold split.
  rewrite split_aux_pass by by apply not_before_absent.
  rewrite app_nil_r. destruct Hw as [->|(r & ->)].
  - simpl. by rewrite rev_involutive.
  - rewrite (split_aux_sep amp [] r). simpl. by rewrite rev_involutive.
Qed.

(** The piece after the first separator: it ends at the next separator or
    at the end of the string. *)
Lemma split_second c sep pre v rest :
  c ≠ amp →
  not_before (c :: sep) (pre ++ (c :: sep) ++ v ++ rest) (length pre) = true →
  not_before (c :: sep) (v ++ rest) (length v) = true →
  rest = [] ∨ (∃ r, rest = amp :: r) ∨ (∃ r, rest = (c :: sep) ++ r) →
  ∃ w, (w = [] ∨ ∃ r, w = amp :: r) ∧
       index (split (c :: sep) (pre ++ (c :: sep) ++ v ++ rest)) 1 = Ret (v ++ w).
Proof.
  intros Hc Hpre Hv Hrest. unfold split.
  rewrite split_aux_pass, split_aux_sep by done.
  rewrite split_aux_pass by done. rewrite !app_nil_r.
  destruct Hrest as [->|[(r & ->)|(r & ->)]].
  - exists []. split; [by left|]. simpl. by rewrite !rev_involutive, app_nil_r.
  - cbn [split_aux startswith].
    destruct (N.eqb_spec c amp) as [?|_]; [done|]. cbn [andb].
    destruct (split_aux_head (c :: sep) r (amp :: rev v)) as (w & pieces & ->).
    exists (amp :: w). split; [right; eauto|].
    simpl. by rewrite !rev_involutive, <- app_assoc.
  - rewrite split_aux_sep. exists []. split; [by left|].
    simpl. by rewrite !rev_involutive, app_nil_r.
Qed.

Lemma startswith_split sep s :
  startswith sep s = true → ∃ t, s = sep ++ t.
Proof.
  revert s. induction sep as [|c sep IH]; intros s Hs; [by exists s|].
  destruct s as [|d s]; [done|]. simpl in Hs.
  apply andb_true_iff in Hs as [Hc Hs]. apply N.eqb_eq in Hc as ->.
  destruct (IH s Hs) as [t ->]. by exists t.
Qed.

(** The first occurrence of a separator, and the text after it up to the
    first [&], the next separator or the end. *)
Lemma contains_first sep url :
  sep ≠ [] → contains sep url = true →
  ∃ pre s, url = pre ++ sep ++ s ∧ not_before sep url (length pre) = true.
Proof.
  intros Hsep. induction url as [|c url IH]; intros Hin.
  - by destruct sep.
  - cbn [contains] in Hin.
    destruct (startswith sep (c :: url)) eqn:Hst.
    + apply startswith_split in Hst as [t ->]. by exists [], t.
    + destruct (IH Hin) as (pre & t & -> & Hpre).
      exists (c :: pre), t. split; [done|].
      cbn [app length not_before tail]. cbn [app] in Hst. by rewrite Hst, Hpre.
Qed.

Lemma value_cut sep s :
  ∃ v rest,
    s = v ++ rest ∧ amp ∉ v ∧ not_before sep (v ++ rest) (length v) = true ∧
    (rest = [] ∨ (∃ r, rest = amp :: r) ∨ (∃ r, rest = sep ++ r)).
Proof.
  induction s as [|c s (v & rest & -> & Hamp & Hv & Hrest)].
  - exists [], []. split_and!; [done|apply not_elem_of_nil|done|by left].
  - destruct (decide (c = amp)) as [->|Hc].
    { exists [], (amp :: v ++ rest).
      split_and!; [done|apply not_elem_of_nil|done|right; left; eauto]. }
    destruct (startswith sep (c :: v ++ rest)) eqn:Hst.
    { apply startswith_split in Hst as [t Ht].
      exists [], (c :: v ++ rest).
      split_and!; [done|apply not_elem_of_nil|done|right; right; eauto]. }
    exists (c :: v), rest. split_and!; [done| | |done].
    + apply not_elem_of_cons. split; [congruence|done].
    + cbn [app length not_before tail]. by rewrite Hst, Hv.
Qed.

(** ** The id of an order *)

Lemma contains_app sep pre s : contains sep (pre ++ sep ++ s) = true.
Proof.
  induction pre as [|c pre IH].
  - simpl. destruct (sep ++ s) eqn:Heq.
    + destruct sep; [done|discriminate].
    + simpl. rewrite <- Heq, startswith_app. done.
  - cbn [app contains]. rewrite IH. apply orb_true_r.
Qed.

Lemma not_before_other_head c sep v w :
  Forall (λ d, d ≠ c) v → not_before (c :: sep) (v ++ w) (length v) = true.
Proof.
  induction 1 as [|d v Hd _ IH]; [done|].
  cbn [app length not_before tail startswith]. rewrite IH.
  destruct (N.eqb_spec c d); [congruence|done].
Qed.

Section IdentityFacts.
Context `{!Interp}.

Lemma extract_order_id_cut title pre v rest :
  not_before (u8 "order?id=") (pre ++ u8 "order?id=" ++ v ++ rest) (length pre)
    = true →
  not_before (u8 "order?id=") (v ++ rest) (length v) = true →
  amp ∉ v →
  rest = [] ∨ (∃ r, rest = amp :: r) ∨ (∃ r, rest = u8 "order?id=" ++ r) →
  extract_order_id title (pre ++ u8 "order?id=" ++ v ++ rest) =
  match v with
  | [] => str_of_Z (Z.abs (py_hash (title ++ pre ++ u8 "order?id=" ++ v ++ rest)))
  | _ => v
  end.
Proof.
  intros Hpre Hv Hamp Hrest. unfold extract_order_id.
  rewrite contains_app.
  assert (∃ sep, u8 "order?id=" = @cons codepoint 111%N sep) as [sep Hsep]
    by (eexists; vm_compute; reflexivity).
  rewrite Hsep in *.
  destruct (split_second 111%N sep pre v rest) as (w & Hw & ->); [done..|].
  rewrite bind_ret. change (u8 "&") with [amp].
  rewrite split_amp_first by done.
  by destruct v.
Qed.

Lemma extract_order_id_split title pre v rest :
  not_before (u8 "order?id=") (pre ++ u8 "order?id=" ++ v ++ rest) (length pre)
    = true →
  not_before (u8 "order?id=") (v ++ rest) (length v) = true →
  amp ∉ v → rest = [] ∨ (∃ r, rest = amp :: r) →
  extract_order_id title (pre ++ u8 "order?id=" ++ v ++ rest) =
  match v with
  | [] => str_of_Z (Z.abs (py_hash (title ++ pre ++ u8 "order?id=" ++ v ++ rest)))
  | _ => v
  end.
Proof.
  intros Hpre Hv Hamp Hrest. apply extract_order_id_cut; [done..|].
  destruct Hrest as [?|?]; [by left|by right; left].
Qed.

Lemma extract_order_id_value title url :
  contains (u8 "order?id=") url = true →
  ∃ pre v rest,
    url = pre ++ u8 "order?id=" ++ v ++ rest ∧
    not_before (u8 "order?id=") url (length pre) = true ∧
    not_before (u8 "order?id=") (v ++ rest) (length v) = true ∧
    amp ∉ v ∧
    (rest = [] ∨ (∃ r, rest = amp :: r) ∨ (∃ r, rest = u8 "order?id=" ++ r)) ∧
    extract_order_id title url =
    match v with
    | [] => str_of_Z (Z.abs (py_hash (title ++ url)))
    | _ => v
    end.
Proof.
  intros Hin. apply contains_first in Hin as (pre & s & -> & Hpre); [|done].
  destruct (value_cut (u8 "order?id=") s) as (v & rest & -> & Hamp & Hv & Hrest).
  exists pre, v, rest. split_and!; [done..|].
  by apply extract_order_id_cut.
Qed.

Lemma extract_order_id_hash title url :
  contains (u8 "order?id=") url = false →
  extract_order_id title url = str_of_Z (Z.abs (py_hash (title ++ url))).
Proof. intros Hno. unfold extract_order_id. by rewrite Hno. Qed.

Lemma search_project_id_unfold href :
  search_project_id href =
  match project_id_here href with
  | Some digits => Some digits
  | None =>
      match href with
      | [] => None
      | _ :: href' => search_project_id href'
      end
  end.
Proof. by destruct href. Qed.

Lemma search_project_id_pass pre s :
  no_project_before (pre ++ s) (length pre) = true →
  search_project_id (pre ++ s) = search_project_id s.
Proof.
  induction pre as [|c pre IH]; intros Hpre; [done|].
  cbn [app length no_project_before tail] in Hpre.
  apply andb_true_iff in Hpre as [Hc Hpre].
  apply bool_decide_eq_true in Hc.
  rewrite search_project_id_unfold. cbn [app]. rewrite Hc. by apply IH.
Qed.

Lemma take_digits_app digits c rest :
  Forall (λ d, is_digit d = true) digits → is_digit c = false →
  take_digits (digits ++ c :: rest) = digits.
Proof.
  intros Hd Hc. induction Hd as [|d digits Hd _ IH]; simpl.
  - by rewrite Hc.
  - by rewrite Hd, IH.
Qed.

Lemma project_id_here_match digits rest :
  digits ≠ [] → Forall (λ d, is_digit d = true) digits → is_digit 47%N = false →
  project_id_here (u8 "/projects/" ++ digits ++ u8 "/" ++ rest) = Some digits.
Proof.
  intros Hne Hd Hslash. unfold project_id_here.
  rewrite startswith_app, drop_app_length.
  change (u8 "/" ++ rest) with (47%N :: rest).
  rewrite take_digits_app by done.
  rewrite bool_decide_eq_true_2 by done.
  by rewrite drop_app_length.
Qed.

Lemma search_project_id_here s digits :
  project_id_here s = Some digits → search_project_id s = Some digits.
Proof. intros Hs. by rewrite search_project_id_unfold, Hs. Qed.

End IdentityFacts.

Lemma extract_order_data_id `{!Interp} block title url :
  extract_title_url block = Some (title, url) →
  (o ← _extract_order_data block; o !! "id") =
  Some (PyStr (extract_order_id title url)).
Proof.
  intros Hb. unfold _extract_order_data. rewrite Hb. simpl.
  by rewrite lookup_insert_eq.
Qed.

(** C9, as the code has it. For FreelanceSpace, a link that holds
    "order?id=" has one value: the text that follows the first "order?id="
    up to the next "&", the next "order?id=" or the end of the link,
    whichever comes first. The id is this value when it is not empty - in
    particular the number that follows "order?id=" - and otherwise, as for
    a link without "order?id=", the decimal string of the absolute value
    of the hash of title + url, without reduction to a range. For FL.ru
    the id is "fl_" followed by the digits of the first
    "/projects/<digits>/" of the link, and otherwise "fl_" followed by the
    absolute value of the hash of the link alone, modulo 1000000. In one
    process, two blocks with the same title and link have the same id. *)
Theorem order_id_derivation (U : Interp) (HU : standard U) :
  (∀ title pre v rest,
     let url := pre ++ u8 "order?id=" ++ v ++ rest in
     not_before (u8 "order?id=") url (length pre) = true →
     not_before (u8 "order?id=") (v ++ rest) (length v) = true →
     amp ∉ v →
     rest = [] ∨ (∃ r, rest = amp :: r) ∨ (∃ r, rest = u8 "order?id=" ++ r) →
     extract_order_id title url =
     match v with
     | [] => str_of_Z (Z.abs (py_hash (title ++ url)))
     | _ => v
     end) ∧
  (∀ title url,
     contains (u8 "order?id=") url = true →
     ∃ pre v rest,
       url = pre ++ u8 "order?id=" ++ v ++ rest ∧
       not_before (u8 "order?id=") url (length pre) = true ∧
       not_before (u8 "order?id=") (v ++ rest) (length v) = true ∧
       amp ∉ v ∧
       (rest = [] ∨ (∃ r, rest = amp :: r) ∨ (∃ r, rest = u8 "order?id=" ++ r)) ∧
       extract_order_id title url =
       match v with
       | [] => str_of_Z (Z.abs (py_hash (title ++ url)))
       | _ => v
       end) ∧
  (∀ title pre digits rest,
     let url := pre ++ u8 "order?id=" ++ digits ++ rest in
     not_before (u8 "order?id=") url (length pre) = true →
     digits ≠ [] → Forall (λ c, 48 ≤ c ≤ 57)%N digits →
     rest = [] ∨ (∃ r, rest = amp :: r) ∨ (∃ r, rest = u8 "order?id=" ++ r) →
     extract_order_id title url = digits) ∧
  (∀ title url,
     contains (u8 "order?id=") url = false →
     extract_order_id title url = str_of_Z (Z.abs (py_hash (title ++ url)))) ∧
  (∀ pre digits rest,
     let href := pre ++ u8 "/projects/" ++ digits ++ u8 "/" ++ rest in
     no_project_before href (length pre) = true →
     digits ≠ [] → Forall (λ c, is_digit c = true) digits →
     order_id_from_href href = u8 "fl_" ++ digits) ∧
  (∀ href,
     search_project_id href = None →
     ∃ n, 0 ≤ n < 1000000 ∧ n = Z.abs (py_hash href) mod 1000000 ∧
          order_id_from_href href = u8 "fl_" ++ str_of_Z n) ∧
  (∀ block1 block2,
     extract_title_url block1 = extract_title_url block2 →
     (o ← _extract_order_data block1; o !! "id") =
     (o ← _extract_order_data block2; o !! "id")).
Proof.
  split_and!.
  - intros title pre v rest url Hpre Hv Hamp Hrest. subst url.
    by apply extract_order_id_cut.
  - intros title url. apply extract_order_id_value.
  - intros title pre digits rest url Hpre Hne Hdigits Hrest. subst url.
    rewrite extract_order_id_cut; [by destruct digits|done| | |done].
    + assert (∃ sep, u8 "order?id=" = @cons codepoint 111%N sep) as [sep ->]
        by (eexists; vm_compute; reflexivity).
      apply not_before_other_head.
      eapply Forall_impl; [exact Hdigits|]. simpl. intros c Hc ->. lia.
    + intros Hin. rewrite Forall_forall in Hdigits.
      apply Hdigits in Hin. unfold amp in Hin. lia.
  - intros title url. apply extract_order_id_hash.
  - intros pre digits rest href Hpre Hne Hdigits. subst href.
    unfold order_id_from_href. rewrite search_project_id_pass by done.
    rewrite (search_project_id_here _ digits); [done|].
    apply project_id_here_match; [done..|].
    unfold is_digit. by rewrite (std_decimal U HU).
  - intros href Hnone. unfold order_id_from_href. rewrite Hnone.
    eexists. split; [|split; reflexivity].
    apply Z.mod_pos_bound. lia.
  - intros block1 block2 Heq.
    destruct (extract_title_url block1) as [[title url]|] eqn:H1.
    + by rewrite (extract_order_data_id block1 title url),
        (extract_order_data_id block2 title url).
    + unfold _extract_order_data. by rewrite H1, <- Heq.
Qed.

(** The link of the order 4711, and a link in which "order?id=" comes a
    second time, right after the value 12. *)
Lemma order_id_derivation_witness :
  @extract_order_id ref_interp (u8 "Landing page")
    (u8 "https://freelancespace.ru/" ++ u8 "order?id=" ++ u8 "4711" ++ [])
  = u8 "4711" ∧
  @extract_order_id ref_interp (u8 "Landing page")
    (u8 "https://freelancespace.ru/" ++ u8 "order?id=" ++ u8 "12" ++
     u8 "order?id=34")
  = u8 "12".
Proof.
  destruct (order_id_derivation ref_interp ref_interp_standard)
    as (Hvalue & _ & Hdigits & _).
  split.
  - apply Hdigits.
    + reflexivity.
    + discriminate.
    + vm_compute. repeat constructor; discriminate.
    + by left.
  - apply (Hvalue (u8 "Landing page") (u8 "https://freelancespace.ru/") (u8 "12")
             (u8 "order?id=34")).
    + reflexivity.
    + reflexivity.
    + vm_compute. intros Hin. repeat (apply elem_of_cons in Hin as [Hin|Hin];
        [discriminate|]). by apply elem_of_nil in Hin.
    + right. right. by exists (u8 "34").
Defined.

(** A link whose id is not a number: the id is the text "abc", which is
    neither a numeric segment of the link, which has no digit, nor a
    hash. *)
Lemma id_need_not_be_numeric :
  let title := u8 "Landing page" in
  let url := u8 "https://freelancespace.ru/order?id=abc" in
  @extract_order_id ref_interp title url = u8 "abc" ∧
  existsb (@is_digit ref_interp) url = false ∧
  @extract_order_id ref_interp title url ≠
    str_of_Z (Z.abs (@py_hash ref_interp (title ++ url))).
Proof. split_and!; [reflexivity|reflexivity|by vm_compute]. Qed.

(** ** Ordering once more *)

Lemma sort_desc_sorted_id {A} (key : A → Z) l :
  StronglySorted (desc key) l → sort_desc key l = l.
Proof.
  intros Hl. symmetry. apply (sorted_stable_unique key); [done| |].
  - apply sort_desc_sorted.
  - intros k. by rewrite sort_desc_stable.
Qed.

Lemma sublist_sorted {A} (R : A → A → Prop) l1 l2 :
  l1 `sublist_of` l2 → StronglySorted R l2 → StronglySorted R l1.
Proof.
  induction 1 as [|x l1 l2 Hsub IH|x l1 l2 Hsub IH]; intros Hs; [done| |].
  - apply StronglySorted_inv in Hs as [Hs Hx]. constructor; [by apply IH|].
    rewrite Forall_forall in *. intros y Hy. apply Hx.
    by eapply elem_of_sublist.
  - apply StronglySorted_inv in Hs as [Hs _]. by apply IH.
Qed.

Lemma sort_orders_by_time_sorted_id `{!Interp} (l : list order) :
  StronglySorted (desc recency_ordinal) l → _sort_orders_by_time l = l.
Proof.
  intros Hl. destruct (computes_or_raises published_key l) as [Hkeys|Hkeys].
  - rewrite sort_orders_by_time_eq by done. by apply sort_desc_sorted_id.
  - by apply sort_orders_by_time_fallback.
Qed.

Lemma sort_orders_by_time_sorted `{!Interp} (l : list order) :
  Forall (λ x, ∃ n, published_key x = Ret n) l →
  StronglySorted (desc recency_ordinal) (_sort_orders_by_time l).
Proof.
  intros Hkeys. rewrite sort_orders_by_time_eq by done. apply sort_desc_sorted.
Qed.

(** X1. [_sort_orders_by_time] leaves a list alone when it is descending
    already; sorting twice is sorting once. When the key of every order of
    a list is computed, the sort also leaves alone every selection from
    the list it returns for it. *)
Theorem sort_orders_by_time_idempotent `{!Interp} (orders selected : list order) :
  _sort_orders_by_time (_sort_orders_by_time orders)
    = _sort_orders_by_time orders ∧
  (StronglySorted (desc recency_ordinal) orders →
     _sort_orders_by_time orders = orders) ∧
  (Forall (λ x, ∃ n, published_key x = Ret n) orders →
   selected `sublist_of` _sort_orders_by_time orders →
     _sort_orders_by_time selected = selected).
Proof.
  split_and!.
  - destruct (computes_or_raises published_key orders) as [Hkeys|Hkeys].
    + by apply sort_orders_by_time_sorted_id, sort_orders_by_time_sorted.
    + rewrite (sort_orders_by_time_fallback orders) by done.
      by apply sort_orders_by_time_fallback.
  - apply sort_orders_by_time_sorted_id.
  - intros Hkeys Hsub. apply sort_orders_by_time_sorted_id.
    eapply sublist_sorted; [done|]. by apply sort_orders_by_time_sorted.
Qed.

Lemma sort_orders_by_time_idempotent_witness :
  @_sort_orders_by_time ref_interp [order_of "2" "2 часа"; order_of "1" "5 минут"]
  = [order_of "2" "2 часа"; order_of "1" "5 минут"].
Proof.
  apply (@sort_orders_by_time_idempotent ref_interp
           [order_of "1" "5 минут"; order_of "2" "2 часа"; order_of "3" "1 час"]).
  - repeat constructor; eexists; reflexivity.
  - vm_compute. apply sublist_skip, sublist_cons, sublist_skip, sublist_nil.
Defined.

(** ** Repeated and counted queries *)

Lemma order_ids_length l :
  Forall (λ x, truthy (get x "id") = true) l → length (order_ids l) = length l.
Proof.
  induction 1 as [|x l Hx _ IH]; [done|].
  unfold order_ids. cbn [omap list_omap]. fold (order_ids l).
  destruct (order_id x) eqn:Hid.
  - simpl. by rewrite IH.
  - apply order_id_none in Hid. congruence.
Qed.





Section Counting.
Context `{!Interp}.

Lemma cycle_size env pages st :
  size (sent_orders (CombinedParser.get_new_orders env pages st).2) =
  (size (sent_orders st) + length (CombinedParser.get_new_orders env pages st).1)%nat.
Proof.
  destruct (get_new_orders_spec env pages st) as (Hnd & Htr & Hfresh & Hsent & _).
  rewrite Hsent, size_union.
  - by rewrite size_list_to_set, order_ids_length.
  - intros i Hi Hi'. apply elem_of_list_to_set in Hi'. by apply (Hfresh i).
Qed.

Lemma cycle_step_size call st :
  size (sent_orders (cycle_step call st).2) =
  (size (sent_orders st) + length (cycle_step call st).1)%nat.
Proof. destruct call. apply cycle_size. Qed.

Lemma run_state_reachable calls st :
  reachable st → reachable (run_state cycle_step calls st).
Proof.
  revert st. induction calls as [|[env pages] calls IH]; intros st Hst; [done|].
  simpl. apply IH. unfold cycle_step. by constructor.
Qed.

Lemma run_state_size calls st :
  size (sent_orders (run_state cycle_step calls st)) =
  (size (sent_orders st) + length (concat (run cycle_step calls st)))%nat.
Proof.
  revert st. induction calls as [|call calls IH]; intros st.
  { simpl. lia. }
  rewrite run_cons. cbn [run_state concat]. rewrite IH, length_app.
  rewrite cycle_step_size. lia.
Qed.

End Counting.

(** X3. After any number of cycles from the start, [total_sent_orders] is the
    number of orders the aggregator has returned so far, and it is at most
    the sum of the two counts of [get_sources_info]. *)
Theorem total_sent_counts_returned `{!Interp} (calls : list (cycle_env * nat)) :
  let st := run_state cycle_step calls initial in
  let info := get_sources_info st in
  total_sent info = total_sent_orders st ∧
  total_sent_orders st = length (concat (run cycle_step calls initial)) ∧
  (total_sent info ≤ source_sent_orders (freelancespace info)
                     + source_sent_orders (fl info))%nat.
Proof.
  cbv zeta. split_and!; [done| |].
  - unfold total_sent_orders. rewrite run_state_size.
    change (sent_orders initial) with (∅ : gset str). by rewrite size_empty.
  - cbn [get_sources_info total_sent freelancespace fl source_sent_orders].
    unfold total_sent_orders.
    pose proof (reachable_seen_by_adapters _
                  (run_state_reachable calls initial reachable_initial)) as Hsub.
    unfold seen_by_adapters in Hsub. apply subseteq_size in Hsub.
    etrans; [done|]. rewrite size_union_alt.
    apply Nat.add_le_mono_l, subseteq_size. set_solver.
Qed.

(** ** The aggregator and its adapters *)

Section Released.
Context `{!Interp}.

Lemma cycle_sets env pages st :
  let fs :=
    FreelanceSpaceParserSimple.get_new_orders (fs_post env) (fs_parse env) pages
      (fs_sent st) in
  let fl := FLParser.get_new_orders (fl_page env) (fl_sent st) in
  let cycle := CombinedParser.get_new_orders env pages st in
  fs_sent cycle.2 = fs_sent st ∪ list_to_set (order_ids fs.1) ∧
  fl_sent cycle.2 = fl_sent st ∪ list_to_set (order_ids fl.1) ∧
  cycle.1 ⊆+ fs.1 ++ fl.1 ∧
  (∀ i, i ∈ order_ids cycle.1 ↔ i ∈ order_ids (fs.1 ++ fl.1) ∧ i ∉ sent_orders st) ∧
  sent_orders cycle.2 = sent_orders st ∪ list_to_set (order_ids cycle.1).
Proof.
  cbv zeta. rewrite get_new_orders_unfold. cbv zeta.
  cbn [fst snd fs_sent fl_sent sent_orders].
  unfold FreelanceSpaceParserSimple.get_new_orders, FLParser.get_new_orders.
  set (all_fs := parse_orders _ _ _).
  set (all_fl := match fl_page env with Ret p => [] ++ p | Raise _ => [] end).
  destruct (new_orders_loop_proj all_fs (fs_sent st)) as (_ & _ & _ & _ & Hfs).
  destruct (new_orders_loop_proj all_fl (fl_sent st)) as (_ & _ & _ & _ & Hfl).
  set (nfs := (new_orders_loop all_fs (fs_sent st)).1) in *.
  set (nfl := (new_orders_loop all_fl (fl_sent st)).1) in *.
  destruct (new_orders_loop_proj (nfs ++ nfl) (sent_orders st))
    as (Hsub & _ & _ & Hids & Hun).
  set (un := (new_orders_loop (nfs ++ nfl) (sent_orders st)).1) in *.
  split_and!; [done|done| | |].
  - rewrite (sort_orders_by_time_perm un).
    by apply sublist_submseteq.
  - intros i. by rewrite order_ids_sorted.
  - rewrite Hun. f_equal. apply set_eq. intros i. rewrite !elem_of_list_to_set.
    by rewrite order_ids_sorted.
Qed.

Lemma cycle_keeps_union env pages st :
  sent_orders st = fs_sent st ∪ fl_sent st →
  sent_orders (CombinedParser.get_new_orders env pages st).2 =
  fs_sent (CombinedParser.get_new_orders env pages st).2
  ∪ fl_sent (CombinedParser.get_new_orders env pages st).2.
Proof.
  intros Hst.
  destruct (cycle_sets env pages st) as (-> & -> & _ & Hids & ->).
  apply set_eq. intros i.
  rewrite !elem_of_union, !elem_of_list_to_set, Hids, order_ids_app, elem_of_app.
  rewrite Hst, !elem_of_union.
  destruct (decide (i ∈ fs_sent st)); [tauto|].
  destruct (decide (i ∈ fl_sent st)); tauto.
Qed.

Lemma run_state_union calls st :
  sent_orders st = fs_sent st ∪ fl_sent st →
  sent_orders (run_state cycle_step calls st) =
  fs_sent (run_state cycle_step calls st) ∪ fl_sent (run_state cycle_step calls st).
Proof.
  revert st. induction calls as [|[env pages] calls IH]; intros st Hst; [done|].
  cbn [run_state]. apply IH. unfold cycle_step. cbn [fst snd].
  by apply cycle_keeps_union.
Qed.

End Released.

(** X4. After any number of cycles from the start the seen set of the
    aggregator is the union of the seen sets of its two adapters. In a
    cycle from such a state the result is a selection, reordered, of the
    orders the two adapters release in that cycle; an id released by one
    adapter is in the result unless the other adapter has marked it in an
    earlier cycle. *)
Theorem aggregator_set_is_union `{!Interp}
  (calls : list (cycle_env * nat)) (env : cycle_env) (pages : nat) :
  let st := run_state cycle_step calls initial in
  let fs :=
    (FreelanceSpaceParserSimple.get_new_orders (fs_post env) (fs_parse env) pages
       (fs_sent st)).1 in
  let fl := (FLParser.get_new_orders (fl_page env) (fl_sent st)).1 in
  let out := (CombinedParser.get_new_orders env pages st).1 in
  sent_orders st = fs_sent st ∪ fl_sent st ∧
  out ⊆+ fs ++ fl ∧
  (∀ i, i ∈ order_ids out ↔
        i ∈ order_ids fs ∧ i ∉ fl_sent st ∨ i ∈ order_ids fl ∧ i ∉ fs_sent st).
Proof.
  cbv zeta.
  assert (sent_orders (run_state cycle_step calls initial) =
          fs_sent (run_state cycle_step calls initial)
          ∪ fl_sent (run_state cycle_step calls initial)) as Hst.
  { apply run_state_union. cbn. by rewrite union_empty_r_L. }
  set (st := run_state cycle_step calls initial) in *.
  destruct (cycle_sets env pages st) as (_ & _ & Hsub & Hids & _).
  split_and!; [done|done|].
  intros i. rewrite Hids, order_ids_app, elem_of_app, Hst, elem_of_union.
  unfold FreelanceSpaceParserSimple.get_new_orders, FLParser.get_new_orders.
  set (all_fs := parse_orders _ _ _).
  set (all_fl := match fl_page env with Ret p => [] ++ p | Raise _ => [] end).
  destruct (new_orders_loop_proj all_fs (fs_sent st)) as (_ & _ & _ & Hfs & _).
  destruct (new_orders_loop_proj all_fl (fl_sent st)) as (_ & _ & _ & Hfl & _).
  specialize (Hfs i). specialize (Hfl i). tauto.
Qed.

(** Both origins list the id "X" in the first cycle: the aggregator returns it. *)
Lemma aggregator_set_is_union_witness :
  u8 "X" ∈ order_ids (@CombinedParser.get_new_orders ref_interp both_list_X 3 initial).1.
Proof.
  apply (@aggregator_set_is_union ref_interp [] both_list_X 3%nat).
  left. split; [|set_solver]. vm_compute. apply list_elem_of_here.
Defined.

(** ** The page loop in general *)

Section PageLoopShape.
Context `{!Interp}.
Variable post : nat → outcome response.
Variable parse_html_response : str → nat → outcome (list order).





End PageLoopShape.



(** ** The blocks the locator lists *)

Section LocatorBlocks.
Variable soup : node.

Lemma walk_up_block depth parent p :
  walk_up soup depth parent = Some p → block_at soup p = true.
Proof.
  revert parent. induction depth as [|depth IH]; intros parent; [done|].
  simpl. destruct parent as [q|]; [|done].
  destruct (block_at soup q) eqn:Hq.
  - by intros [= <-].
  - apply IH.
Qed.

Lemma walk_up_new_block depth parent blocks p :
  walk_up_new soup depth parent blocks = Some p → block_at soup p = true.
Proof.
  revert parent. induction depth as [|depth IH]; intros parent; [done|].
  simpl. destruct parent as [q|]; [|done].
  destruct (block_at soup q && negb (in_blocks soup q blocks)) eqn:Hq.
  - intros [= <-]. by apply andb_true_iff in Hq as [? _].
  - apply IH.
Qed.

Lemma append_found_blocks blocks found :
  Forall (λ p, block_at soup p = true) blocks →
  (∀ p, found = Some p → block_at soup p = true) →
  Forall (λ p, block_at soup p = true) (append_found blocks found).
Proof.
  intros Hb Hf. destruct found as [p|]; [|done]. simpl.
  apply Forall_app. split; [done|]. constructor; [by apply Hf|constructor].
Qed.

Lemma method1_blocks : Forall (λ p, block_at soup p = true) (method1 soup).
Proof.
  unfold method1.
  assert (∀ bs acc, Forall (λ p, block_at soup p = true) acc →
            Forall (λ p, block_at soup p = true) (fold_left (λ order_blocks button,
              append_found order_blocks (walk_up soup 15 (find_parent button)))
              bs acc)) as Hfold.
  { induction bs as [|b bs IH]; intros acc Hacc; [done|].
    cbn [fold_left]. apply IH, append_found_blocks; [done|].
    intros p. apply walk_up_block. }
  by apply Hfold.
Qed.

Lemma method2_blocks blocks :
  Forall (λ p, block_at soup p = true) blocks →
  Forall (λ p, block_at soup p = true) (method2 soup blocks).
Proof.
  unfold method2. revert blocks.
  induction css_selectors as [|selector selectors IH]; intros blocks Hb; [done|].
  cbn [fold_left]. apply IH. clear IH. revert blocks Hb.
  induction (select soup selector) as [|block found IH]; intros blocks Hb; [done|].
  cbn [fold_left]. apply IH.
  destruct (block_at soup block && negb (in_blocks soup block blocks)) eqn:Hnew;
    [|done].
  apply andb_true_iff in Hnew as [Hnew _].
  apply Forall_app. split; [done|]. by constructor.
Qed.

Lemma method3_blocks blocks :
  Forall (λ p, block_at soup p = true) blocks →
  Forall (λ p, block_at soup p = true) (method3 soup blocks).
Proof.
  unfold method3. revert blocks.
  induction (order_links soup) as [|link links IH]; intros blocks Hb; [done|].
  cbn [fold_left]. apply IH, append_found_blocks; [done|].
  intros p. apply walk_up_new_block.
Qed.

Lemma locate_order_blocks_blocks :
  Forall (λ p, block_at soup p = true) (locate_order_blocks soup).
Proof. apply method3_blocks, method2_blocks, method1_blocks. Qed.

End LocatorBlocks.

(** X7. Every block the locator hands to the extraction is an element of the
    document that passes [_is_order_block], whichever of the three methods
    found it; a document without such an element gives no block. *)
Theorem located_blocks_are_order_blocks (soup : node) :
  Forall (λ p, ∃ element,
            node_at soup p = Some element ∧ _is_order_block element = true)
    (locate_order_blocks soup) ∧
  ((∀ p element, node_at soup p = Some element → _is_order_block element = false) →
   locate_order_blocks soup = []).
Proof.
  assert (Forall (λ p, ∃ element,
            node_at soup p = Some element ∧ _is_order_block element = true)
            (locate_order_blocks soup)) as Hall.
  { eapply Forall_impl; [apply locate_order_blocks_blocks|].
    intros p Hp. unfold block_at in Hp.
    destruct (node_at soup p) as [element|]; [|done]. by exists element. }
  split; [done|].
  intros Hnone. destruct (locate_order_blocks soup) as [|p blocks]; [done|].
  apply Forall_cons in Hall as [(element & Hp & Hb) _].
  apply Hnone in Hp. congruence.
Qed.

Lemma located_blocks_are_order_blocks_witness :
  locate_order_blocks (document [el "p" [] [txt "Заказов пока нет"]]) = [].
Proof.
  apply located_blocks_are_order_blocks.
  intros p element Hp.
  destruct p as [|[|i] [|[|j] [|k p]]]; simpl in Hp; try discriminate;
    injection Hp as <-; vm_compute; reflexivity.
Defined.

(** ** The fields of an extracted order *)

Lemma str_of_pos_aux_nonempty fuel n acc :
  acc ≠ [] → str_of_pos_aux fuel n acc ≠ [].
Proof.
  revert n acc. induction fuel as [|fuel IH]; intros n acc Hacc; [done|].
  simpl. destruct (n <? 10)%N; [done|]. by apply IH.
Qed.

Lemma str_of_Z_nonempty z : str_of_Z z ≠ [].
Proof.
  unfold str_of_Z. destruct (z <? 0); [done|].
  unfold str_of_N. simpl. destruct (Z.abs_N z <? 10)%N; [done|].
  by apply str_of_pos_aux_nonempty.
Qed.

Lemma extract_order_id_nonempty `{!Interp} title url :
  extract_order_id title url ≠ [].
Proof.
  unfold extract_order_id.
  destruct (if contains (u8 "order?id=") url then _ else _) as [|[|c rest]];
    [apply str_of_Z_nonempty..|done].
Qed.

Lemma extract_title_url_shape block title url :
  extract_title_url block = Some (title, url) →
  title ≠ [] ∧ (url = [] ∨ startswith (u8 "http") url = true).
Proof.
  unfold extract_title_url.
  assert (∀ x, startswith (u8 "http") (u8 "https://freelancespace.ru/" ++ x) = true)
    as Hbase by (intros; reflexivity).
  remember (u8 "http") as http eqn:E1.
  remember (u8 "https://freelancespace.ru/") as base eqn:E2. clear E1 E2.
  destruct (find_class "h2" _ block) as [title_element|];
    cbn [mbind option_bind]; [|done].
  destruct (find_tag "a" title_element) as [title_link|];
    cbn [mbind option_bind]; [|done].
  cbv zeta.
  remember (get_text_strip title_link) as t eqn:Ht.
  remember (default [] (node_href title_link)) as href eqn:Hhref.
  destruct t as [|c t]; cbn [truthy negb]; [done|].
  intros [= <- <-]. split; [done|].
  destruct href as [|h href]; cbn [truthy andb]; [by left|right].
  destruct (startswith http (h :: href)) eqn:Hhttp; cbn [negb]; [done|].
  apply Hbase.
Qed.

Lemma project_id_here_nonempty `{!Interp} s digits :
  project_id_here s = Some digits → digits ≠ [].
Proof.
  unfold project_id_here. destruct (startswith _ s); [|done]. cbv zeta.
  set (found := take_digits _).
  destruct (bool_decide (found ≠ [])) eqn:Hd; cbn [andb]; [|done].
  destruct (startswith _ _); [|done].
  intros [= <-]. by apply bool_decide_eq_true in Hd.
Qed.

Lemma search_project_id_nonempty `{!Interp} href digits :
  search_project_id href = Some digits → digits ≠ [].
Proof.
  induction href as [|c href IH]; rewrite search_project_id_unfold.
  - destruct (project_id_here []) as [d|] eqn:Hhere; [|done].
    intros [= <-]. by eapply project_id_here_nonempty.
  - destruct (project_id_here (c :: href)) as [d|] eqn:Hhere; [|done].
    intros [= <-]. by eapply project_id_here_nonempty.
Qed.

Lemma extract_order_data_fields `{!Interp} block o :
  _extract_order_data block = Some o →
  ∃ title url,
    extract_title_url block = Some (title, url) ∧
    get o "id" = PyStr (extract_order_id title url) ∧
    get o "title" = PyStr title ∧
    get o "author" = PyStr (extract_author block title) ∧
    get o "url" = PyStr url ∧
    get o "source" = PyStr (u8 "freelancespace.ru").
Proof.
  unfold _extract_order_data.
  destruct (extract_title_url block) as [[title url]|] eqn:Hb; [|done].
  cbn [mbind option_bind]. intros [= <-]. exists title, url. unfold get.
  split_and!; [done|..].
  - by rewrite lookup_insert_eq.
  - by rewrite lookup_insert_ne, lookup_insert_eq by done.
  - by rewrite !lookup_insert_ne, lookup_insert_eq by done.
  - by rewrite !lookup_insert_ne, lookup_insert_eq by done.
  - by rewrite !lookup_insert_ne, lookup_singleton_eq by done.
Qed.

(** X9. Every order that [_extract_order_data] builds has an id and a title
    that are true values, so it passes the guard of [get_new_orders]; its
    link is empty or starts with "http", and its source is
    "freelancespace.ru". Every id of the detail-page adapter is "fl_"
    followed by at least one character. *)
Theorem adapter_orders_have_ids `{!Interp} :
  (∀ block o,
     _extract_order_data block = Some o →
     truthy (get o "id") = true ∧
     truthy (get o "title") = true ∧
     (∃ url, get o "url" = PyStr url ∧
             (url = [] ∨ startswith (u8 "http") url = true)) ∧
     get o "source" = PyStr (u8 "freelancespace.ru")) ∧
  (∀ href, ∃ rest, order_id_from_href href = u8 "fl_" ++ rest ∧ rest ≠ []).
Proof.
  split.
  - intros block o Ho.
    apply extract_order_data_fields in Ho
      as (title & url & Hb & -> & -> & _ & -> & ->).
    apply extract_title_url_shape in Hb as [Htitle Hurl].
    split_and!; [| |by exists url|done].
    + pose proof (extract_order_id_nonempty title url).
      by destruct (extract_order_id title url).
    + by destruct title.
  - intros href. unfold order_id_from_href.
    destruct (search_project_id href) as [digits|] eqn:Hs.
    + exists digits. split; [done|]. by eapply search_project_id_nonempty.
    + eexists. split; [done|]. apply str_of_Z_nonempty.
Qed.

Lemma adapter_orders_have_ids_witness :
  from_option (λ o, truthy (get o "id")) false
    (@_extract_order_data ref_interp plain_name) = true.
Proof.
  destruct (@_extract_order_data ref_interp plain_name) as [o|] eqn:Ho;
    [|vm_compute in Ho; discriminate].
  by apply (@adapter_orders_have_ids ref_interp) in Ho as [? _].
Defined.

(** ** The author once more *)

Lemma first_loop_name author_spans title author :
  first_loop author_spans title author = author ∨
  is_name (first_loop author_spans title author) title = true.
Proof.
  induction author_spans as [|span rest IH]; [by left|]. simpl.
  destruct (bool_decide (u8 "sm:inline" ∈ get_class span)); [|done].
  destruct (is_name (get_text_strip span) title) eqn:Hname; [by right|done].
Qed.

Lemma second_loop_name author_spans title author :
  second_loop author_spans title author = author ∨
  is_name (second_loop author_spans title author) title = true.
Proof.
  induction author_spans as [|span rest IH]; [by left|].
  cbn [second_loop]. cbv zeta.
  remember (get_text_strip span) as author_text eqn:Htext.
  destruct (bool_decide (u8 "font-semibold" ∈ get_class span)); [|done].
  destruct (is_name author_text title
            && negb (endswith (take (length author_text / 2) author_text)
                       author_text)) eqn:Hguard; [|done].
  destruct (2 <? length author_text)%nat; [|by left].
  destruct (str_eqb (take (length author_text / 2) author_text)
              (drop (length author_text / 2) author_text)) eqn:Hhalves.
  - apply andb_true_iff in Hguard as [_ Hguard].
    apply negb_true_iff in Hguard.
    apply bool_decide_eq_true in Hhalves.
    apply two_halves_end_with_half in Hhalves. congruence.
  - right. by apply andb_true_iff in Hguard as [? _].
Qed.

(** X10. The author of an order is "Не указан" or a text that passed the test
    for a name: shorter than 50 characters, not the title, and without
    "...". *)
Theorem author_is_a_name_or_default (block : node) (title : str) :
  let author := extract_author block title in
  author = u8 "Не указан" ∨
  (length author < 50)%nat ∧ author ≠ title ∧ contains (u8 "...") author = false.
Proof.
  cbv zeta.
  assert (∀ a, is_name a title = true →
               (length a < 50)%nat ∧ a ≠ title ∧ contains (u8 "...") a = false)
    as Hname.
  { intros a Ha. unfold is_name in Ha.
    apply andb_true_iff in Ha as [Ha Hdots].
    apply andb_true_iff in Ha as [Hlen Hne].
    apply Nat.ltb_lt in Hlen. apply negb_true_iff in Hne, Hdots.
    apply bool_decide_eq_false in Hne. done. }
  unfold extract_author.
  destruct (find_class "div" _ block) as [author_container|]; [|by left].
  cbv zeta.
  destruct (first_loop_name (find_all_class "span" ["hidden"] author_container)
              title not_specified) as [Hfirst|Hfirst].
  - rewrite Hfirst. unfold str_eqb at 1. rewrite bool_decide_eq_true_2 by done.
    destruct (second_loop_name
                (find_all_class "span" ["text-gray-800"; "font-semibold"]
                   author_container) title not_specified) as [Hsecond|Hsecond].
    + by left.
    + right. by apply Hname.
  - destruct (str_eqb _ not_specified) eqn:Heq.
    + apply bool_decide_eq_true in Heq. rewrite Heq.
      destruct (second_loop_name
                  (find_all_class "span" ["text-gray-800"; "font-semibold"]
                     author_container) title not_specified) as [Hsecond|Hsecond].
      * by left.
      * right. by apply Hname.
    + right. by apply Hname.
Qed.

(** ** The category *)

Lemma category_loop_valid `{!Interp} category_containers category :
  category_loop category_containers category = category ∨
  category_loop category_containers category ∈ u8 <$> valid_categories.
Proof.
  induction category_containers as [|container rest IH]; [by left|].
  cbn [category_loop]. cbv zeta.
  destruct (bool_decide (u8 "mb-4" ∈ get_class container)
            && bool_decide (u8 "gap-4" ∈ get_class container)); [|done].
  destruct (find_tag "p" container) as [first_p|]; [|done].
  remember (get_text_strip first_p) as cat_text eqn:Htext.
  destruct (bool_decide (cat_text ∈ u8 <$> valid_categories)) eqn:Hin;
    cbn [andb]; [|done].
  apply bool_decide_eq_true in Hin.
  destruct (negb (contains (u8 "₽") cat_text)); cbn [andb]; [|done].
  destruct (negb (contains (u8 "руб") cat_text)); cbn [andb]; [|done].
  destruct (negb (contains (u8 "договор") (py_lower cat_text))); [by right|done].
Qed.

Lemma valid_category (name : string) :
  bool_decide (name ∈ valid_categories) = true → u8 name ∈ u8 <$> valid_categories.
Proof.
  intros Hin. apply bool_decide_eq_true in Hin.
  apply list_elem_of_fmap. by exists name.
Qed.

Lemma category_from_text_valid block_text category :
  category ∈ u8 <$> valid_categories ∨ category = not_stated →
  category_from_text block_text category ∈ u8 <$> valid_categories ∨
  category_from_text block_text category = not_stated.
Proof.
  intros Hc. unfold category_from_text.
  destruct (contains (u8 "Разработка") block_text);
    [left; by apply valid_category|].
  destruct (contains (u8 "Дизайн") block_text);
    [left; by apply valid_category|].
  destruct (contains (u8 "AI - искусственный интеллект") block_text);
    [left; by apply valid_category|].
  destruct (contains (u8 "SEO продвижение") block_text);
    [left; by apply valid_category|].
  destruct (contains (u8 "Программирование") block_text);
    [left; by apply valid_category|].
  done.
Qed.

(** X11. The category of an order is one of the thirteen names of
    [valid_categories] or "Не указана", whatever the block holds. *)
Theorem category_is_known `{!Interp} (block : node) :
  extract_category block ∈ u8 <$> valid_categories ∨
  extract_category block = u8 "Не указана".
Proof.
  unfold extract_category. cbv zeta.
  destruct (category_loop_valid
              (find_all_class "div" ["flex"; "items-center"; "text-sm"; "text-gray-500"]
                 block) not_stated) as [Hloop|Hloop].
  - rewrite Hloop. unfold str_eqb. rewrite bool_decide_eq_true_2 by done.
    apply category_from_text_valid. by right.
  - destruct (str_eqb _ not_stated); [|by left].
    apply category_from_text_valid. by left.
Qed.

(** ** Cleaned text *)

Lemma sub_spaces_head text b : sub_spaces text true ≠ 32%N :: b.
Proof.
  induction text as [|c text IH]; [done|]. simpl.
  destruct (isspace c) eqn:Hc; [done|].
  intros [= -> _]. done.
Qed.

Lemma sub_spaces_single text in_run a b :
  sub_spaces text in_run ≠ a ++ 32%N :: 32%N :: b.
Proof.
  revert in_run a. induction text as [|c text IH]; intros in_run a.
  { simpl. by destruct a. }
  simpl. destruct (isspace c) eqn:Hc.
  - destruct in_run; [apply IH|].
    destruct a as [|x a]; simpl.
    + intros [= H]. by apply sub_spaces_head in H.
    + intros [= _ H]. by apply IH in H.
  - destruct a as [|x a]; simpl.
    + intros [= -> _]. done.
    + intros [= _ H]. by apply IH in H.
Qed.

Lemma sub_spaces_blank text in_run :
  Forall (λ c, isspace c = true → c = 32%N) (sub_spaces text in_run).
Proof.
  revert in_run. induction text as [|c text IH]; intros in_run; [constructor|].
  simpl. destruct (isspace c) eqn:Hc.
  - destruct in_run; [apply IH|]. constructor; [done|apply IH].
  - constructor; [|apply IH]. congruence.
Qed.

Lemma lstrip_suffix u : ∃ ws, u = ws ++ lstrip u.
Proof.
  induction u as [|c u [ws IH]]; [by exists []|]. simpl.
  destruct (isspace c).
  - exists (c :: ws). simpl. by rewrite <- IH.
  - by exists [].
Qed.

Lemma rstrip_prefix u : ∃ ws, u = rstrip u ++ ws.
Proof.
  unfold rstrip. destruct (lstrip_suffix (rev u)) as [ws Hws].
  exists (rev ws). by rewrite <- rev_app_distr, <- Hws, rev_involutive.
Qed.

Lemma strip_infix s : ∃ a b, s = a ++ strip s ++ b.
Proof.
  change (∃ a b, s = a ++ rstrip (lstrip s) ++ b).
  destruct (lstrip_suffix s) as [a Ha].
  destruct (rstrip_prefix (lstrip s)) as [b Hb].
  exists a, b. by rewrite <- Hb.
Qed.

Lemma lstrip_head s c rest : lstrip s = c :: rest → isspace c = false.
Proof.
  induction s as [|d s IH]; [done|]. simpl.
  destruct (isspace d) eqn:Hd; [done|]. by intros [= <- _].
Qed.

Lemma lstrip_snoc x c : isspace c = false → lstrip (x ++ [c]) = lstrip x ++ [c].
Proof.
  intros Hc. induction x as [|d x IH]; simpl; [by rewrite Hc|].
  by destruct (isspace d).
Qed.

Lemma strip_head s c rest : strip s = c :: rest → isspace c = false.
Proof.
  change (rstrip (lstrip s) = c :: rest → isspace c = false).
  destruct (lstrip s) as [|d u] eqn:Hl; [done|].
  apply lstrip_head in Hl. unfold rstrip. simpl.
  rewrite lstrip_snoc, rev_app_distr by done. simpl. by intros [= <- _].
Qed.

Lemma replace_absent old new text : old ∉ text → replace old new text = text.
Proof.
  unfold replace. induction text as [|c text IH]; intros Hold; [done|].
  rewrite fmap_cons, IH by set_solver.
  destruct (c =? old)%N eqn:Hc; [|done].
  apply N.eqb_eq in Hc. set_solver.
Qed.

Lemma blank_absent (c : codepoint) text :
  isspace c = true → c ≠ 32%N →
  Forall (λ c, isspace c = true → c = 32%N) text → c ∉ text.
Proof.
  intros Hc Hne Hall Hin. rewrite Forall_forall in Hall. by apply Hall in Hin.
Qed.

Lemma infix_blank (a s b : str) :
  Forall (λ c, isspace c = true → c = 32%N) (a ++ s ++ b) →
  Forall (λ c, isspace c = true → c = 32%N) s.
Proof. rewrite !Forall_app. tauto. Qed.

(** X12. [_clean_text] returns at most 200 characters, cut from the text in
    which every run of white space is one space and which is stripped.
    The only white space in the result is the space, no two spaces are
    adjacent, and the result does not start with one; so the two calls
    of [replace] for the line feed and the tab change nothing. *)
Theorem clean_text_shape (text : str) :
  let cleaned := _clean_text text in
  (length cleaned ≤ 200)%nat ∧
  cleaned = take 200 (strip (sub_spaces text false)) ∧
  Forall (λ c, isspace c = true → c = 32%N) cleaned ∧
  (∀ a b, cleaned ≠ a ++ 32%N :: 32%N :: b) ∧
  (∀ c rest, cleaned = c :: rest → isspace c = false).
Proof.
  cbv zeta.
  destruct (strip_infix (sub_spaces text false)) as (a & b & Hsub).
  assert (Forall (λ c, isspace c = true → c = 32%N) (strip (sub_spaces text false)))
    as Hblank.
  { apply (infix_blank a _ b). rewrite <- Hsub. apply sub_spaces_blank. }
  assert (_clean_text text = take 200 (strip (sub_spaces text false))) as Heq.
  { unfold _clean_text. destruct text as [|c text]; [done|].
    cbn [truthy negb]. cbv zeta.
    rewrite (replace_absent 10%N), (replace_absent 9%N); [done|..];
      by apply blank_absent. }
  rewrite Heq.
  set (stripped := strip (sub_spaces text false)) in *.
  split_and!.
  - rewrite length_take. lia.
  - done.
  - rewrite <- (take_drop 200 stripped), Forall_app in Hblank. tauto.
  - intros a' b' Hcut.
    apply (sub_spaces_single text false (a ++ a') (b' ++ drop 200 stripped ++ b)).
    rewrite Hsub at 1. rewrite <- (take_drop 200 stripped) at 1. rewrite Hcut.
    by rewrite <- !app_assoc.
  - intros c rest Hcut. apply (strip_head (sub_spaces text false) c (drop 1 stripped)).
    fold stripped. destruct stripped as [|d u]; [done|].
    simpl in Hcut. by injection Hcut as -> _.
Qed.

(** A text with blanks around and between its words. *)
Lemma clean_text_shape_witness :
  _clean_text (u8 "  Разработка   сайта ") = u8 "Разработка сайта" ∧
  isspace 1056%N = false.
Proof.
  split; [reflexivity|].
  pose proof (clean_text_shape (u8 "  Разработка   сайта ")) as (_ & _ & _ & _ & Hhead).
  apply (Hhead 1056%N (u8 "азработка сайта")). reflexivity.
Defined.

(** ** The index page of the detail-page adapter *)

Section ParsePage.
Context `{!Interp}.
Variable session_get : str → outcome node.
Variable _extract_order_from_individual_page : str → option order.



End ParsePage.



(** ** The bots *)

Lemma order_ids_elem x i l : x ∈ l → order_id x = Some i → i ∈ order_ids l.
Proof. intros Hx Hi. unfold order_ids. apply list_elem_of_omap. by exists x. Qed.

Section Notifications.
Context `{!Interp}.

Lemma notify_run_orders calls st :
  (λ attempts : list attempt, attempted <$> attempts)
    <$> FreelanceParserBotCombined.notify_run calls st =
  run cycle_step
    ((λ call : cycle_env * (message → outcome ()), (call.1, 3%nat)) <$> calls) st.
Proof.
  revert st. induction calls as [|[env send_message] calls IH]; intros st; [done|].
  rewrite fmap_cons, run_cons. cbn [FreelanceParserBotCombined.notify_run].
  unfold FreelanceParserBotCombined.parse_and_notify, cycle_step. cbn [fst snd].
  destruct (CombinedParser.get_new_orders env 3 st) as [new_orders st'] eqn:Hcycle.
  cbn [fst snd]. case_bool_decide as Hnil.
  - rewrite fmap_cons, IH. by rewrite Hnil.
  - rewrite fmap_cons, IH. f_equal.
    rewrite <- list_fmap_compose. apply list_fmap_id.
Qed.

Lemma cycle_never_again calls st n m out_n out_m i :
  (n < m)%nat →
  run cycle_step calls st !! n = Some out_n →
  run cycle_step calls st !! m = Some out_m →
  i ∈ order_ids out_n → i ∉ order_ids out_m.
Proof.
  apply (run_never_again cycle_step sent_orders).
  - intros [env pages] st' j. unfold cycle_step. cbn [fst snd].
    apply get_new_orders_spec.
  - intros [env pages] st'. unfold cycle_step. cbn [fst snd].
    destruct (get_new_orders_spec env pages st') as (_ & _ & _ & -> & _). done.
Qed.

Lemma cycle_sorted env pages st :
  Forall (λ x, ∃ n, published_key x = Ret n)
    (CombinedParser.get_new_orders env pages st).1 →
  StronglySorted (desc recency_ordinal) (CombinedParser.get_new_orders env pages st).1.
Proof.
  rewrite get_new_orders_unfold. cbv zeta. cbn [fst]. intros Hkeys.
  apply sort_orders_by_time_sorted.
  by rewrite sort_orders_by_time_perm in Hkeys.
Qed.

Lemma notify_run_lookup calls st n attempts :
  FreelanceParserBotCombined.notify_run calls st !! n = Some attempts →
  run cycle_step
    ((λ call : cycle_env * (message → outcome ()), (call.1, 3%nat)) <$> calls) st
    !! n = Some (attempted <$> attempts).
Proof.
  intros Hn. rewrite <- notify_run_orders, list_lookup_fmap, Hn. done.
Qed.

Lemma parse_and_notify_result env send_message st :
  let call := FreelanceParserBotCombined.parse_and_notify env send_message st in
  let cycle := CombinedParser.get_new_orders env 3 st in
  call.1.1 = cycle.1 ∧ attempted <$> call.1.2 = cycle.1 ∧ call.2 = cycle.2 ∧
  Forall (λ a, a = FreelanceParserBotCombined.send_order_notification
                     send_message (attempted a)) call.1.2.
Proof.
  cbv zeta. unfold FreelanceParserBotCombined.parse_and_notify.
  destruct (CombinedParser.get_new_orders env 3 st) as [new_orders st'].
  cbn [fst snd]. case_bool_decide as Hnil; cbn [fst snd].
  - by rewrite Hnil.
  - split_and!; [done| |done|].
    + rewrite <- list_fmap_compose. apply list_fmap_id.
    + apply Forall_fmap, Forall_forall. by intros o _.
Qed.

Lemma notify_run_call calls st n attempts :
  FreelanceParserBotCombined.notify_run calls st !! n = Some attempts →
  ∃ env send_message st',
    calls !! n = Some (env, send_message) ∧
    attempts =
      (FreelanceParserBotCombined.parse_and_notify env send_message st').1.2.
Proof.
  revert st n. induction calls as [|[env send_message] calls IH]; intros st n;
    [done|].
  cbn [FreelanceParserBotCombined.notify_run].
  destruct (FreelanceParserBotCombined.parse_and_notify env send_message st)
    as [[result attempts'] st'] eqn:Hcall.
  destruct n as [|n]; simpl.
  - intros [= <-]. exists env, send_message, st. by rewrite Hcall.
  - apply IH.
Qed.

End Notifications.

(** X14. The combined bot hands one message to [send_message] for every order
    its aggregator returns in a cycle, in the order of the result, and
    returns that result whatever [send_message] does; the order is
    descending in the recency ordinal when the key of every order of the
    cycle is computed. Over the cycles of a process no id is attempted
    twice, in one cycle or in two: an order whose message was not
    delivered is not taken up again. *)
Theorem notifications_at_most_once `{!Interp}
  (calls : list (cycle_env * (message → outcome ()))) (st : state) :
  let cycles := FreelanceParserBotCombined.notify_run calls st in
  (∀ env send_message st',
     let call := FreelanceParserBotCombined.parse_and_notify env send_message st' in
     call.1.1 = (CombinedParser.get_new_orders env 3 st').1 ∧
     attempted <$> call.1.2 = call.1.1 ∧
     call.2 = (CombinedParser.get_new_orders env 3 st').2) ∧
  (∀ n attempts,
     cycles !! n = Some attempts →
     (Forall (λ a, ∃ k, published_key (attempted a) = Ret k) attempts →
      StronglySorted (desc recency_ordinal) (attempted <$> attempts)) ∧
     NoDup (order_ids (attempted <$> attempts)) ∧
     Forall (λ a, truthy (get (attempted a) "id") = true) attempts ∧
     ∃ env send_message, calls !! n = Some (env, send_message) ∧
       Forall (λ a, a = FreelanceParserBotCombined.send_order_notification
                          send_message (attempted a)) attempts) ∧
  (∀ n m attempts_n attempts_m a b,
     n ≠ m →
     cycles !! n = Some attempts_n → cycles !! m = Some attempts_m →
     a ∈ attempts_n → b ∈ attempts_m →
     get (attempted a) "id" ≠ get (attempted b) "id").
Proof.
  cbv zeta.
  assert (∀ n attempts,
     FreelanceParserBotCombined.notify_run calls st !! n = Some attempts →
     Forall (λ a, truthy (get (attempted a) "id") = true) attempts) as Htrue.
  { intros n attempts Hn.
    apply notify_run_call in Hn as (env & send_message & st' & _ & ->).
    destruct (parse_and_notify_result env send_message st') as (_ & Hatt & _).
    destruct (get_new_orders_spec env 3 st') as (_ & Htr & _).
    rewrite <- Hatt in Htr. by apply Forall_fmap in Htr. }
  assert (∀ n m attempts_n attempts_m a b,
     (n < m)%nat →
     FreelanceParserBotCombined.notify_run calls st !! n = Some attempts_n →
     FreelanceParserBotCombined.notify_run calls st !! m = Some attempts_m →
     a ∈ attempts_n → b ∈ attempts_m →
     get (attempted a) "id" ≠ get (attempted b) "id") as Hlt.
  { intros n m attempts_n attempts_m a b Hnm Hn Hm Ha Hb Heq.
    pose proof (Htrue n attempts_n Hn) as Htn. rewrite Forall_forall in Htn.
    specialize (Htn a Ha).
    destruct (order_id (attempted a)) as [i|] eqn:Hi;
      [|apply order_id_none in Hi; congruence].
    assert (order_id (attempted b) = Some i) as Hi'.
    { unfold order_id in *. by rewrite <- Heq. }
    apply notify_run_lookup in Hn, Hm.
    eapply (cycle_never_again _ st n m); [done..| |].
    - apply (order_ids_elem (attempted a)); [|done].
      apply list_elem_of_fmap. by exists a.
    - apply (order_ids_elem (attempted b)); [|done].
      apply list_elem_of_fmap. by exists b. }
  split_and!.
  - intros env send_message st'.
    destruct (parse_and_notify_result env send_message st') as (H1 & H2 & H3 & _).
    cbv zeta. by rewrite H2, H1.
  - intros n attempts Hn. split_and!; [| |by eapply Htrue|].
    + intros Hkeys.
      assert (Forall (λ x : order, ∃ k, published_key x = Ret k)
                (attempted <$> attempts)) as Hk by (by apply Forall_fmap).
      clear Hkeys. revert Hk.
      apply notify_run_call in Hn as (env & send_message & st' & _ & ->).
      destruct (parse_and_notify_result env send_message st') as (_ & -> & _).
      apply cycle_sorted.
    + apply notify_run_call in Hn as (env & send_message & st' & _ & ->).
      destruct (parse_and_notify_result env send_message st') as (_ & -> & _).
      apply get_new_orders_spec.
    + apply notify_run_call in Hn as (env & send_message & st' & Hcall & ->).
      exists env, send_message. split; [done|].
      apply parse_and_notify_result.
  - intros n m attempts_n attempts_m a b Hnm Hn Hm Ha Hb.
    destruct (decide (n < m)%nat) as [Hlt'|Hge].
    + by eapply Hlt.
    + intros Heq. eapply (Hlt m n attempts_m attempts_n b a); [lia|done..].
Qed.

Lemma notifications_at_most_once_witness :
  NoDup (order_ids
           (attempted <$>
              (@FreelanceParserBotCombined.parse_and_notify ref_interp both_list_X
                 (λ _, Raise OtherError) initial).1.2)).
Proof.
  pose proof (@notifications_at_most_once ref_interp
                [(both_list_X, λ _, Raise OtherError)] initial) as (_ & Hcycle & _).
  apply (Hcycle 0%nat). reflexivity.
Defined.

(** X15. The simple bot sorts the new orders of its adapter once more before it
    sends them. When the key of every order that [parse_orders] collected
    from the pages is computed, the adapter returns its new orders in
    descending order of the recency ordinal already, so the sort changes
    nothing: the bot sends and returns the orders of the adapter as they
    are. *)
Theorem simple_bot_sort_changes_nothing `{!Interp}
  (post : nat → outcome response)
  (parse_html_response : str → nat → outcome (list order)) (max_pages : nat)
  (send_message : message → outcome ()) (sent : gset str) :
  let call :=
    FreelanceParserBotSimple.parse_and_notify post parse_html_response max_pages
      send_message sent in
  let new :=
    FreelanceSpaceParserSimple.get_new_orders post parse_html_response max_pages
      sent in
  Forall (λ x, ∃ n, published_key x = Ret n)
    (parse_orders post parse_html_response max_pages) →
  StronglySorted (desc recency_ordinal) new.1 ∧
  call.1.1 = new.1 ∧ attempted <$> call.1.2 = new.1 ∧ call.2 = new.2.
Proof.
  cbv zeta. intros Hkeys.
  assert (StronglySorted (desc recency_ordinal)
            (FreelanceSpaceParserSimple.get_new_orders post parse_html_response
               max_pages sent).1) as Hsorted.
  { unfold FreelanceSpaceParserSimple.get_new_orders.
    eapply sublist_sorted; [apply new_orders_loop_proj|].
    revert Hkeys. unfold parse_orders, parse_orders_trace.
    destruct (pages_loop _ _ _ _ _) as [all_orders requested]. cbn [fst].
    intros Hkeys. apply sort_orders_by_time_sorted.
    by rewrite sort_orders_by_time_perm in Hkeys. }
  split; [done|].
  unfold FreelanceParserBotSimple.parse_and_notify.
  destruct (FreelanceSpaceParserSimple.get_new_orders post parse_html_response
              max_pages sent) as [new_orders sent'].
  cbn [fst snd] in *. case_bool_decide as Hnil; cbn [fst snd].
  - by rewrite Hnil.
  - cbv zeta. rewrite sort_orders_by_time_sorted_id by done.
    split_and!; [done| |done].
    rewrite <- list_fmap_compose. apply list_fmap_id.
Qed.

(** Two orders on the first page and a second page that times out. *)
Lemma simple_bot_sort_changes_nothing_witness :
  (@FreelanceParserBotSimple.parse_and_notify ref_interp second_page_times_out
     two_orders 3 (λ _, Ret ()) ∅).1.1 =
  (@FreelanceSpaceParserSimple.get_new_orders ref_interp second_page_times_out
     two_orders 3 ∅).1.
Proof.
  apply (@simple_bot_sort_changes_nothing ref_interp second_page_times_out
           two_orders 3 (λ _, Ret ()) ∅).
  vm_compute. repeat constructor; eexists; reflexivity.
Defined.

(** X16. The combined bot marks an order of FreelanceSpace.ru by the source
    "FreelanceSpace.ru"; the adapter writes "freelancespace.ru". So no
    order that [_extract_order_data] builds is counted for
    FreelanceSpace.ru in the log line, and each gets the mark of the other
    origin in its message. *)
Theorem freelancespace_orders_not_counted `{!Interp} :
  (∀ block o,
     _extract_order_data block = Some o →
     FreelanceParserBotCombined.is_freelancespace o = false ∧
     FreelanceParserBotCombined.source_emoji o = u8 "🔸") ∧
  (∀ new_orders,
     Forall (λ o, ∃ block, _extract_order_data block = Some o) new_orders →
     FreelanceParserBotCombined.freelancespace_count new_orders = 0%nat).
Proof.
  assert (∀ block o,
     _extract_order_data block = Some o →
     FreelanceParserBotCombined.is_freelancespace o = false) as Hsource.
  { intros block o Ho.
    apply extract_order_data_fields in Ho as (title & url & _ & _ & _ & _ & _ & Hs).
    unfold FreelanceParserBotCombined.is_freelancespace. rewrite Hs.
    by apply bool_decide_eq_false. }
  split.
  - intros block o Ho. split; [by eapply Hsource|].
    unfold FreelanceParserBotCombined.source_emoji.
    by rewrite (Hsource block o Ho).
  - intros new_orders Hall.
    unfold FreelanceParserBotCombined.freelancespace_count.
    induction Hall as [|o new_orders (block & Ho) _ IH]; [done|].
    cbn [List.filter]. by rewrite (Hsource block o Ho).
Qed.

Lemma freelancespace_orders_not_counted_witness :
  from_option FreelanceParserBotCombined.is_freelancespace true
    (@_extract_order_data ref_interp plain_name) = false.
Proof.
  destruct (@_extract_order_data ref_interp plain_name) as [o|] eqn:Ho;
    [|vm_compute in Ho; discriminate].
  by apply (@freelancespace_orders_not_counted ref_interp) in Ho as [? _].
Defined.

(** ** Relative links *)

Lemma extract_title_url_relative block title_element title_link tail :
  find_class "h2" ["text-xl"; "font-semibold"; "text-gray-800"; "mb-2"] block
    = Some title_element →
  find_tag "a" title_element = Some title_link →
  get_text_strip title_link ≠ [] →
  node_href title_link = Some (u8 "/order?id=" ++ tail) →
  extract_title_url block =
  Some (get_text_strip title_link,
        u8 "https://freelancespace.ru/" ++ u8 "order?id=" ++ tail).
Proof.
  intros Hh2 Ha Htitle Hhref. unfold extract_title_url.
  rewrite Hh2. cbn [mbind option_bind]. rewrite Ha. cbn [mbind option_bind].
  cbv zeta. rewrite Hhref. cbn [default].
  destruct (get_text_strip title_link) as [|c t]; [done|].
  cbn [truthy negb].
  change (u8 "/order?id=" ++ tail) with (47%N :: u8 "order?id=" ++ tail).
  assert (∃ sep, u8 "order?id=" = @cons codepoint 111%N sep) as [sep ->]
    by (eexists; vm_compute; reflexivity).
  reflexivity.
Qed.

(** X17. A title link of the form "/order?id=" followed by digits, alone or
    before "&", gives an order whose link is the absolute link on
    freelancespace.ru and whose id is these digits: the completion of the
    link and the reading of the id fit together. *)
Theorem relative_link_gives_id `{!Interp}
  (block title_element title_link : node) (digits rest : str) :
  find_class "h2" ["text-xl"; "font-semibold"; "text-gray-800"; "mb-2"] block
    = Some title_element →
  find_tag "a" title_element = Some title_link →
  get_text_strip title_link ≠ [] →
  node_href title_link = Some (u8 "/order?id=" ++ digits ++ rest) →
  digits ≠ [] → Forall (λ c, 48 ≤ c ≤ 57)%N digits →
  rest = [] ∨ (∃ r, rest = amp :: r) →
  ∃ o, _extract_order_data block = Some o ∧
       get o "id" = PyStr digits ∧
       get o "title" = PyStr (get_text_strip title_link) ∧
       get o "url" =
         PyStr (u8 "https://freelancespace.ru/order?id=" ++ digits ++ rest).
Proof.
  intros Hh2 Ha Htitle Hhref Hne Hdigits Hrest.
  pose proof (extract_title_url_relative block title_element title_link
                (digits ++ rest) Hh2 Ha Htitle Hhref) as Hb.
  assert (extract_order_id (get_text_strip title_link)
            (u8 "https://freelancespace.ru/" ++ u8 "order?id=" ++ digits ++ rest)
          = digits) as Hid.
  { rewrite extract_order_id_split; [by destruct digits| | | |done].
    - reflexivity.
    - assert (∃ sep, u8 "order?id=" = @cons codepoint 111%N sep) as [sep ->]
        by (eexists; vm_compute; reflexivity).
      apply not_before_other_head.
      eapply Forall_impl; [exact Hdigits|]. simpl. intros c Hc ->. lia.
    - intros Hin. rewrite Forall_forall in Hdigits.
      apply Hdigits in Hin. unfold amp in Hin. lia. }
  unfold _extract_order_data. rewrite Hb. cbn [mbind option_bind].
  eexists. split; [reflexivity|]. unfold get. split_and!.
  - by rewrite lookup_insert_eq, Hid.
  - by rewrite lookup_insert_ne, lookup_insert_eq by done.
  - by rewrite !lookup_insert_ne, lookup_insert_eq by done.
Qed.

Lemma relative_link_gives_id_witness :
  ∃ o, @_extract_order_data ref_interp plain_name = Some o ∧
       get o "id" = PyStr (u8 "4711") ∧
       get o "title" = PyStr (u8 "Landing page") ∧
       get o "url" = PyStr (u8 "https://freelancespace.ru/order?id=4711").
Proof.
  apply (@relative_link_gives_id ref_interp plain_name
           (el "h2" ["text-xl"; "font-semibold"]
              [link "/order?id=4711" [txt "Landing page"]])
           (link "/order?id=4711" [txt "Landing page"]) (u8 "4711") []).
  - reflexivity.
  - reflexivity.
  - discriminate.
  - reflexivity.
  - discriminate.
  - vm_compute. repeat constructor; discriminate.
  - by left.
Defined.
